(** * fetch-throttler: a token bucket and a per-hostname [fetch] rate limiter

  Shallow embedding of [src/bucket.js] (class [Bucket]) and of the
  [FetchThrottler] class that routes [fetch] calls to buckets by hostname.

  Conventions of the embedding.
  - JavaScript numbers that count tokens or milliseconds are integers [Z];
    [Bucket] computes with them exactly, [Double] as the code's doubles
    do, and the two agree on integers within [2^53] of zero.
  - A promise is an index into a store of promise states; the [resolve]
    callback kept in a [Queuer] is the index of the promise it settles.
  - A [Bucket] instance is a record; methods take the instance and the
    promise store and return the updated ones (explicit state passing).
  - The event loop is run-to-completion: a trace is a list of calls and
    timer callbacks, executed one after the other. *)

From Stdlib Require Import ZArith Lia.
From stdpp Require Import base list gmap strings.

(** ** Promises *)

Module Promise.

(** The error a bucket rejects with: [new RangeError(...)], carrying the
    two numbers its message interpolates. *)
Inductive error : Type :=
| RangeError (count maxTokens : Z).

(** A [Promise<void>]. *)
Inductive state : Type :=
| Pending
| Fulfilled
| Rejected (reason : error).

#[global] Instance error_eq_dec : EqDecision error.
Proof. solve_decision. Defined.

#[global] Instance state_eq_dec : EqDecision state.
Proof. solve_decision. Defined.

(** [Promise.withResolvers()]: a new pending promise; its handle is the
    next free index of the store. *)
Definition withResolvers (ps : list state) : nat * list state :=
  (length ps, ps ++ [Pending]).

(** Settling is effective once: [resolve] and [reject] on a promise that is
    no longer pending do nothing. *)
Definition settle (p : nat) (v : state) (ps : list state) : list state :=
  match ps !! p with
  | Some Pending => <[p := v]> ps
  | _ => ps
  end.

End Promise.

(** ** The token bucket, [src/bucket.js] *)

Module Bucket.

Local Open Scope Z_scope.

(** [BucketOptions]: every property is optional. *)
Record Options : Type := mkOptions {
  opt_initialTokens : option Z;
  opt_interval : option Z;
  opt_tokensPerInterval : option Z;
  opt_maxTokens : option Z
}.

(** [Queuer]: [{ count, resolve }]. *)
Record Queuer : Type := mkQueuer {
  count : Z;
  resolve : nat
}.

#[global] Instance Queuer_eq_dec : EqDecision Queuer.
Proof. solve_decision. Defined.

(** The handle returned by [setInterval(callback, delay)]. *)
Record Timer : Type := mkTimer { delay : Z }.

#[global] Instance Timer_eq_dec : EqDecision Timer.
Proof. solve_decision. Defined.

(** The private fields of a [Bucket]; [intervalId = None] is [undefined]. *)
Record t : Type := mk {
  tokens : Z;
  interval : Z;
  tokensPerInterval : Z;
  maxTokens : Z;
  intervalId : option Timer;
  queue : list Queuer
}.

(** What the methods of a bucket act on besides the instance: the promise
    store, and the sequence of [resolve()] calls made so far, in call
    order. *)
Record Env : Type := mkEnv {
  promises : list Promise.state;
  resolved : list Queuer
}.

Definition empty_env : Env := mkEnv [] [].

Definition set_tokens (n : Z) (b : t) : t :=
  mk n (interval b) (tokensPerInterval b) (maxTokens b) (intervalId b) (queue b).

Definition set_queue (q : list Queuer) (b : t) : t :=
  mk (tokens b) (interval b) (tokensPerInterval b) (maxTokens b) (intervalId b) q.

Definition set_intervalId (i : option Timer) (b : t) : t :=
  mk (tokens b) (interval b) (tokensPerInterval b) (maxTokens b) i (queue b).

(** [constructor(options = {})]: [??] defaults, nothing else. *)
Definition new (options : Options) : t :=
  let tokens0 := default 1 (opt_initialTokens options) in
  {| tokens := tokens0;
     interval := default 1000 (opt_interval options);
     tokensPerInterval := default 1 (opt_tokensPerInterval options);
     maxTokens := default (if tokens0 =? 0 then 1 else tokens0) (opt_maxTokens options);
     intervalId := None;
     queue := [] |}.

(** [next.resolve()]. *)
Definition call_resolve (next : Queuer) (e : Env) : Env :=
  {| promises := Promise.settle (resolve next) Promise.Fulfilled (promises e);
     resolved := resolved e ++ [next] |}.

(** The [for] loop of [#take]: from the front of the queue, an entry is
    taken while [tokens >= next.count]; the loop breaks at the first entry
    that is not.  The result's queue is [this.#queue.slice(i)]. *)
Fixpoint take_loop (tokens : Z) (q : list Queuer) (e : Env) : Z * list Queuer * Env :=
  match q with
  | [] => (tokens, [], e)
  | next :: rest =>
      if tokens >=? count next
      then take_loop (tokens - count next) rest (call_resolve next e)
      else (tokens, q, e)
  end.

(** [#take()]. *)
Definition take (b : t) (e : Env) : t * Env :=
  let '(tokens', q', e') := take_loop (tokens b) (queue b) e in
  (set_queue q' (set_tokens tokens' b), e').

(** [#start()]: [this.#intervalId = setInterval(..., this.#interval)]. *)
Definition start (b : t) : t :=
  set_intervalId (Some (mkTimer (interval b))) b.

(** The callback [#start] hands to [setInterval], for a bucket that is still
    alive ([ref.deref()] is the bucket). *)
Definition tick (b : t) (e : Env) : t * Env :=
  let b1 := set_tokens (Z.min (tokens b + tokensPerInterval b) (maxTokens b)) b in
  let '(b2, e2) := take b1 e in
  if (tokens b2 =? maxTokens b2) && (length (queue b2) =? 0)%nat
  then (set_intervalId None b2, e2)
  else (b2, e2).

(** [removeTokens(count)]: returns the promise with the new state.  The
    [if] that rejects has no [return]: the statements after it run for
    every [count]. *)
Definition removeTokens (n : Z) (b : t) (e : Env) : t * Env * nat :=
  let '(promise, ps1) := Promise.withResolvers (promises e) in
  let ps2 :=
    if n >? maxTokens b
    then Promise.settle promise (Promise.Rejected (Promise.RangeError n (maxTokens b))) ps1
    else ps1 in
  let b1 := set_queue (queue b ++ [mkQueuer n promise]) b in
  let '(b2, e2) := take b1 (mkEnv ps2 (resolved e)) in
  let b3 :=
    match intervalId b2 with
    | None => if tokens b2 <? maxTokens b2 then start b2 else b2
    | Some _ => b2
    end in
  (b3, e2, promise).

(** *** Runs of one bucket on the event loop *)

(** What can happen to a bucket: a call of [removeTokens], or the timer
    firing. *)
Inductive op : Type :=
| RemoveTokens (n : Z)
| Tick.

(** The interval callback only runs while an interval is set. *)
Definition step (o : op) (s : t * Env) : t * Env :=
  match o with
  | RemoveTokens n => (removeTokens n s.1 s.2).1
  | Tick =>
      match intervalId s.1 with
      | Some _ => tick s.1 s.2
      | None => s
      end
  end.

Fixpoint run (tr : list op) (s : t * Env) : t * Env :=
  match tr with
  | [] => s
  | o :: tr' => run tr' (step o s)
  end.

(** The state a trace starts from: a new bucket, no promise yet. *)
Definition init (options : Options) : t * Env := (new options, empty_env).

(** The arguments of the [removeTokens] calls of a trace, in call order. *)
Fixpoint requests (tr : list op) : list Z :=
  match tr with
  | [] => []
  | RemoveTokens n :: tr' => n :: requests tr'
  | Tick :: tr' => requests tr'
  end.

(** The queuers those calls push when the promise store starts empty: the
    [i]-th call creates promise [i]. *)
Definition submitted (tr : list op) : list Queuer :=
  imap (fun i n => mkQueuer n i) (requests tr).

(** Number of timer callbacks that run along a trace. *)
Fixpoint fired (tr : list op) (s : t * Env) : nat :=
  match tr with
  | [] => 0%nat
  | o :: tr' =>
      ((match o, intervalId s.1 with
        | Tick, Some _ => 1
        | _, _ => 0
        end) + fired tr' (step o s))%nat
  end.

(** No callback of the trace hits the [Math.min] cap. *)
Fixpoint no_overflow (tr : list op) (s : t * Env) : bool :=
  match tr with
  | [] => true
  | o :: tr' =>
      (match o, intervalId s.1 with
       | Tick, Some _ => tokens s.1 + tokensPerInterval s.1 <=? maxTokens s.1
       | _, _ => true
       end) && no_overflow tr' (step o s)
  end.

Definition sum_counts (l : list Queuer) : Z :=
  foldr (fun q acc => count q + acc) 0 l.

(** Tokens added by the timer callbacks that run along a trace: each adds
    what [Math.min] lets through. *)
Fixpoint refilled (tr : list op) (s : t * Env) : Z :=
  match tr with
  | [] => 0
  | o :: tr' =>
      (match o, intervalId s.1 with
       | Tick, Some _ =>
           Z.min (tokens s.1 + tokensPerInterval s.1) (maxTokens s.1) - tokens s.1
       | _, _ => 0
       end) + refilled tr' (step o s)
  end.

(** *** Vocabulary of the properties *)

(** The entries of [l] can be paid one after the other out of [n] tokens. *)
Fixpoint affordable (n : Z) (l : list Queuer) : Prop :=
  match l with
  | [] => True
  | q :: l' => count q <= n /\ affordable (n - count q) l'
  end.

(** The promise store after [resolve()] was called for each entry of [l]. *)
Definition settle_all (l : list Queuer) (ps : list Promise.state) : list Promise.state :=
  foldl (fun ps q => Promise.settle (resolve q) Promise.Fulfilled ps) ps l.

(** The requests a bucket has seen and not lost: those already resolved,
    then those still queued. *)
Definition history (s : t * Env) : list Queuer :=
  resolved s.2 ++ queue s.1.

(** Tokens in the bucket plus tokens handed out. *)
Definition ledger (s : t * Env) : Z :=
  tokens s.1 + sum_counts (resolved s.2).

(** A queue as [#take] leaves it at level [n]: empty, or with a head that
    costs more than [n]. *)
Definition blocked (n : Z) (rest : list Queuer) : Prop :=
  match rest with
  | [] => True
  | next :: _ => n < count next
  end.

(** The promise store [removeTokens] hands to [#take]. *)
Definition admitted (n : Z) (b : t) (e : Env) : list Promise.state :=
  if n >? maxTokens b
  then Promise.settle (length (promises e))
         (Promise.Rejected (Promise.RangeError n (maxTokens b)))
         (promises e ++ [Promise.Pending])
  else promises e ++ [Promise.Pending].

(** The timer runs only if there is something to wait for. *)
Definition timer_needed (b : t) : Prop :=
  blocked (tokens b) (queue b) /\
  Forall (fun q => 0 <= count q <= maxTokens b) (queue b) /\
  (intervalId b <> None -> tokens b < maxTokens b \/ queue b <> []).

(** The timer runs exactly when there is something to wait for. *)
Definition timer_exact (b : t) : Prop :=
  timer_needed b /\
  (tokens b < maxTokens b \/ queue b <> [] -> intervalId b <> None).

(** Level within bounds, and nothing negative around. *)
Definition within_bounds (b : t) : Prop :=
  0 <= tokensPerInterval b /\
  0 <= tokens b <= maxTokens b /\
  Forall (fun q => 0 <= count q) (queue b).

(** *** Vocabulary of further properties *)

(** What [resolve()] does to the state of a promise. *)
Definition fulfil (x : option Promise.state) : option Promise.state :=
  match x with
  | Some Promise.Pending => Some Promise.Fulfilled
  | _ => x
  end.

(** The state of the promise of a request for [n] tokens on a bucket of
    capacity [M], by whether [resolve()] was called for it. *)
Definition outcome (M n : Z) (paid : bool) : Promise.state :=
  if n >? M then Promise.Rejected (Promise.RangeError n M)
  else if paid then Promise.Fulfilled
  else Promise.Pending.

(** A state that saw the requests [reqs], with each promise telling the
    outcome of its request. *)
Definition tracked (M : Z) (reqs : list Z) (s : t * Env) : Prop :=
  maxTokens s.1 = M /\
  history s = imap (fun i n => mkQueuer n i) reqs /\
  length (promises s.2) = length reqs /\
  forall i n, reqs !! i = Some n ->
    promises s.2 !! i
    = Some (outcome M n (bool_decide (i < length (resolved s.2))%nat)).

(** Every timer a bucket holds was set with the bucket's interval. *)
Definition timer_on_interval (b : t) : Prop :=
  forall i, intervalId b = Some i -> delay i = interval b.

(** A number of timer callbacks after which a bucket is idle: one per token
    missing, and a full refill per queued request. *)
Definition settle_time (b : t) : Z :=
  Z.of_nat (length (queue b)) * (maxTokens b + 1) + (maxTokens b - tokens b).

(** The queue is stuck behind [next], a request above the capacity. *)
Definition stuck_behind (next : Queuer) (b : t) : Prop :=
  maxTokens b < count next /\
  tokens b <= maxTokens b /\
  exists rest, queue b = next :: rest.

End Bucket.

(** ** The bucket's arithmetic in double precision

    [Bucket] adds and subtracts in [Z].  The code's numbers are doubles:
    on integers the two agree as long as the result is within [2^53] of
    zero, and beyond that the code's result is the nearest double.  This
    module is the bucket with that rounding, on integer-valued doubles of
    magnitude below [2^1024]; comparisons and [Math.min] are exact on
    doubles. *)

Module Double.

Import Bucket.
Local Open Scope Z_scope.

(** The distance between neighbouring doubles around [s], for
    [|s| >= 2^52]. *)
Definition spacing (s : Z) : Z := 2 ^ (Z.log2 (Z.abs s) - 52).

(** The double nearest to the integer [s], ties to the even
    significand. *)
Definition round (s : Z) : Z :=
  if Z.abs s <=? 2 ^ 53 then s
  else
    let u := spacing s in
    let q := s / u in
    let r := s mod u in
    if 2 * r <? u then q * u
    else if u <? 2 * r then (q + 1) * u
    else if Z.even q then q * u
    else (q + 1) * u.

(** [a + b] and [a - b] on numbers. *)
Definition plus (a b : Z) : Z := round (a + b).
Definition minus (a b : Z) : Z := round (a - b).

(** The loop of [#take], with [this.#tokens -= next.count] in doubles. *)
Fixpoint take_loop (tokens : Z) (q : list Queuer) (e : Env) : Z * list Queuer * Env :=
  match q with
  | [] => (tokens, [], e)
  | next :: rest =>
      if tokens >=? count next
      then take_loop (minus tokens (count next)) rest (call_resolve next e)
      else (tokens, q, e)
  end.

(** [#take()]. *)
Definition take (b : t) (e : Env) : t * Env :=
  let '(tokens', q', e') := take_loop (tokens b) (queue b) e in
  (set_queue q' (set_tokens tokens' b), e').

(** The callback of [#start], with
    [self.#tokens + self.#tokensPerInterval] in doubles. *)
Definition tick (b : t) (e : Env) : t * Env :=
  let b1 := set_tokens (Z.min (plus (tokens b) (tokensPerInterval b)) (maxTokens b)) b in
  let '(b2, e2) := take b1 e in
  if (tokens b2 =? maxTokens b2) && (length (queue b2) =? 0)%nat
  then (set_intervalId None b2, e2)
  else (b2, e2).

(** [removeTokens(count)]. *)
Definition removeTokens (n : Z) (b : t) (e : Env) : t * Env * nat :=
  let '(promise, ps1) := Promise.withResolvers (promises e) in
  let ps2 :=
    if n >? maxTokens b
    then Promise.settle promise (Promise.Rejected (Promise.RangeError n (maxTokens b))) ps1
    else ps1 in
  let b1 := set_queue (queue b ++ [mkQueuer n promise]) b in
  let '(b2, e2) := take b1 (mkEnv ps2 (resolved e)) in
  let b3 :=
    match intervalId b2 with
    | None => if tokens b2 <? maxTokens b2 then start b2 else b2
    | Some _ => b2
    end in
  (b3, e2, promise).

Definition step (o : op) (s : t * Env) : t * Env :=
  match o with
  | RemoveTokens n => (removeTokens n s.1 s.2).1
  | Tick =>
      match intervalId s.1 with
      | Some _ => tick s.1 s.2
      | None => s
      end
  end.

Fixpoint run (tr : list op) (s : t * Env) : t * Env :=
  match tr with
  | [] => s
  | o :: tr' => run tr' (step o s)
  end.

(** *** Where the arithmetic is exact *)

(** An integer every double computation returns as it is. *)
Definition exact (s : Z) : bool := Z.abs s <=? 2 ^ 53.

(** Every difference the loop of [#take] computes is exact. *)
Fixpoint take_exact (tokens : Z) (q : list Queuer) : bool :=
  match q with
  | [] => true
  | next :: rest =>
      if tokens >=? count next
      then exact (tokens - count next) && take_exact (tokens - count next) rest
      else true
  end.

(** The level, the refill and the capacity of a bucket are exact. *)
Definition exact_bucket (b : t) : bool :=
  exact (tokens b) && exact (tokensPerInterval b) && exact (maxTokens b).

(** The count requested is exact, and so is every sum and difference the
    operation computes. *)
Definition step_exact (o : op) (s : t * Env) : bool :=
  match o with
  | RemoveTokens n =>
      exact n
      && take_exact (tokens s.1) (queue s.1 ++ [mkQueuer n (length (promises s.2))])
  | Tick =>
      match intervalId s.1 with
      | Some _ =>
          exact (tokens s.1 + tokensPerInterval s.1)
          && take_exact (Z.min (tokens s.1 + tokensPerInterval s.1) (maxTokens s.1))
               (queue s.1)
      | None => true
      end
  end.

(** The same along a trace. *)
Fixpoint exact_run (tr : list op) (s : t * Env) : bool :=
  match tr with
  | [] => true
  | o :: tr' => step_exact o s && exact_run tr' (Bucket.step o s)
  end.

End Double.

(** ** The rate limiter, class [FetchThrottler] *)

Module FetchThrottler.

(** [T | Array<T>] arguments ([hostname], and the argument of [add]). *)
Inductive or_array (A : Type) : Type :=
| One (a : A)
| Many (l : list A).
Arguments One {A} a.
Arguments Many {A} l.

(** [Array.isArray(x) ? x : [x]]. *)
Definition to_array {A : Type} (x : or_array A) : list A :=
  match x with
  | One a => [a]
  | Many l => l
  end.

(** The part of [new URL(request)] that [fetch] reads. *)
Record URL : Type := mkURL {
  hostname : string;
  searchParams : gmap string string
}.

(** [ThrottleRequestInit]: the [RequestInit] properties in play, and
    [throttleTokens]. *)
Record RequestInit : Type := mkRequestInit {
  method : option string;
  headers : gmap string string;
  throttleTokens : option Z
}.

Definition empty_init : RequestInit := mkRequestInit None ∅ None.

(** An argument list of [STORE.fetch]: a URL with its options. *)
Record Request : Type := mkRequest {
  url : URL;
  init : RequestInit
}.

(** [request.method], as it was given; a [Request] built without a method
    is a [GET].  (A [Request] also upper-cases the standard methods given
    in lower case.) *)
Definition request_method (r : Request) : string :=
  default "GET"%string (method (init r)).

Inductive Interval : Type :=
| Millis (ms : Z)
| Keyword (k : string).

(** [Throttle], as callers pass it and as [#addThrottle] fills it in. *)
Record Throttle : Type := mkThrottle {
  t_hostname : or_array string;
  tokensPerInterval : Z;
  interval : Interval;
  maxTokens : option Z;
  shouldThrottle : option (Request -> bool);
  requestParams : option (gmap string string);
  requestOptions : option RequestInit
}.

(** A value of [#map]: [{ throttle, bucket }], the bucket by reference. *)
Record Entry : Type := mkEntry {
  throttle : Throttle;
  bucket : nat
}.

(** The throttler's [#map] together with the runtime it lives in: the
    [Bucket] objects by reference, the promises, the [fetch] calls
    suspended at [await bucket.removeTokens(...)], and the calls made to
    [STORE.fetch] so far. *)
Record State : Type := mkState {
  map : gmap string Entry;
  heap : list Bucket.t;
  env : Bucket.Env;
  awaiting : list (nat * Request);
  sent : list Request
}.

Definition empty : State := mkState ∅ [] Bucket.empty_env [] [].

Definition set_map (m : gmap string Entry) (s : State) : State :=
  mkState m (heap s) (env s) (awaiting s) (sent s).

Inductive Error : Type :=
| NotAValidValue (interval : string).

(** A method that may throw leaves the state it reached. *)
Inductive result : Type :=
| Ok (s : State)
| Throw (err : Error) (s : State).

(** The [switch] of [#addThrottle]. *)
Definition keyword_ms (k : string) : option Z :=
  if String.eqb k "second" then Some 1000%Z
  else if String.eqb k "minute" then Some (60 * 1000)%Z
  else if String.eqb k "hour" then Some (60 * 60 * 1000)%Z
  else if String.eqb k "day" then Some (24 * 60 * 60 * 1000)%Z
  else None.

Definition interval_ms (i : Interval) : option Z :=
  match i with
  | Millis ms => Some ms
  | Keyword k => keyword_ms k
  end.

(** The default of [throttle.shouldThrottle]. *)
Definition default_shouldThrottle (request : Request) : bool :=
  bool_decide (request_method request ∈ ["GET"; "POST"; "PUT"; "DELETE"; "PATCH"]%string).

(** [#addThrottle]'s input sanitation, given the interval in
    milliseconds. *)
Definition sanitize (ms : Z) (th : Throttle) : Throttle :=
  {| t_hostname := Many (to_array (t_hostname th));
     tokensPerInterval := tokensPerInterval th;
     interval := Millis ms;
     maxTokens := Some (default (tokensPerInterval th) (maxTokens th));
     shouldThrottle := Some (default default_shouldThrottle (shouldThrottle th));
     requestParams := Some (default ∅ (requestParams th));
     requestOptions := Some (default empty_init (requestOptions th)) |}.

(** The rest of [#addThrottle] once the interval is a number: fill in the
    throttle, make its bucket, map each hostname to the pair. *)
Definition install (ms : Z) (th : Throttle) (s : State) : State :=
  let th' := sanitize ms th in
  let b := Bucket.new
             {| Bucket.opt_initialTokens := maxTokens th';
                Bucket.opt_interval := Some ms;
                Bucket.opt_tokensPerInterval := Some (tokensPerInterval th');
                Bucket.opt_maxTokens := None |} in
  let ref := length (heap s) in
  {| map := foldl (fun m h => <[h := mkEntry th' ref]> m) (map s)
              (to_array (t_hostname th));
     heap := heap s ++ [b];
     env := env s;
     awaiting := awaiting s;
     sent := sent s |}.

(** [#addThrottle(throttle)]. *)
Definition addThrottle (th : Throttle) (s : State) : result :=
  match interval th with
  | Keyword k =>
      match keyword_ms k with
      | Some ms => Ok (install ms th s)
      | None => Throw (NotAValidValue k) s
      end
  | Millis ms => Ok (install ms th s)
  end.

(** [#removeThrottle(hostname)]. *)
Definition removeThrottle (h : string) (s : State) : State :=
  set_map (delete h (map s)) s.

(** [remove(hostname)]. *)
Definition remove (hs : or_array string) (s : State) : State :=
  foldl (fun s h => removeThrottle h s) s (to_array hs).

(** The loop of [add]. *)
Fixpoint add_loop (ths : list Throttle) (s : State) : result :=
  match ths with
  | [] => Ok s
  | th :: ths' =>
      match addThrottle th (remove (t_hostname th) s) with
      | Ok s' => add_loop ths' s'
      | Throw err s' => Throw err s'
      end
  end.

(** [add(throttle)]. *)
Definition add (th : or_array Throttle) (s : State) : result :=
  add_loop (to_array th) s.

(** [clear()]. *)
Definition clear (s : State) : State :=
  set_map ∅ s.

(** Microtasks: a suspended [fetch] whose promise is fulfilled goes on to
    [STORE.fetch(newRequest)]; one whose promise is rejected throws. *)
Fixpoint resume (ps : list Promise.state) (aw : list (nat * Request))
  : list (nat * Request) * list Request :=
  match aw with
  | [] => ([], [])
  | (p, r) :: aw' =>
      let '(waiting, ready) := resume ps aw' in
      match ps !! p with
      | Some Promise.Fulfilled => (waiting, r :: ready)
      | Some (Promise.Rejected _) => (waiting, ready)
      | _ => ((p, r) :: waiting, ready)
      end
  end.

Definition flush (s : State) : State :=
  let '(waiting, ready) := resume (Bucket.promises (env s)) (awaiting s) in
  mkState (map s) (heap s) (env s) waiting (sent s ++ ready).

(** [newRequest]: the throttle's parameters, options and headers laid over
    the caller's.  Header names are taken as they are written; [Headers]
    itself compares them without regard to case. *)
Definition merge (th : Throttle) (request : URL) (options : option RequestInit) : Request :=
  let o := default empty_init options in
  let ro := default empty_init (requestOptions th) in
  {| url := {| hostname := hostname request;
               searchParams := default ∅ (requestParams th) ∪ searchParams request |};
     init := {| method := match method ro with Some m => Some m | None => method o end;
                headers := headers ro ∪ headers o;
                throttleTokens :=
                  match throttleTokens ro with
                  | Some n => Some n
                  | None => throttleTokens o
                  end |} |}.

(** [fetch(request, options)] up to its [await], then the microtasks.  An
    entry always refers to a bucket of the heap; the [None] branch of the
    heap lookup is there for totality. *)
Definition fetch (request : URL) (options : option RequestInit) (s : State) : State :=
  match map s !! hostname request with
  | None =>
      mkState (map s) (heap s) (env s) (awaiting s)
        (sent s ++ [mkRequest request (default empty_init options)])
  | Some ent =>
      match heap s !! bucket ent with
      | None => s
      | Some b =>
          let newRequest := merge (throttle ent) request options in
          let n := default 1%Z (options ≫= throttleTokens) in
          let '(b', e', promise) := Bucket.removeTokens n b (env s) in
          flush (mkState (map s) (<[bucket ent := b']> (heap s)) e'
                   (awaiting s ++ [(promise, newRequest)]) (sent s))
      end
  end.

(** The interval of the bucket at [ref] fires. *)
Definition timer (ref : nat) (s : State) : State :=
  match heap s !! ref with
  | Some b =>
      match Bucket.intervalId b with
      | Some _ =>
          let '(b', e') := Bucket.tick b (env s) in
          flush (mkState (map s) (<[ref := b']> (heap s)) e' (awaiting s) (sent s))
      | None => s
      end
  | None => s
  end.

(** A throttle with its [shouldThrottle] replaced. *)
Definition with_shouldThrottle (f : Request -> bool) (th : Throttle) : Throttle :=
  mkThrottle (t_hostname th) (tokensPerInterval th) (interval th) (maxTokens th)
    (Some f) (requestParams th) (requestOptions th).

(** *** Runs of a throttler, and vocabulary of further properties *)

(** The state a method leaves, returned or thrown. *)
Definition state_of (r : result) : State :=
  match r with
  | Ok s => s
  | Throw _ s => s
  end.

(** [new FetchThrottler(throttle)]; [None] is no argument. *)
Definition constructor (th : option (or_array Throttle)) : result :=
  match th with
  | None => Ok empty
  | Some th => add th empty
  end.

(** What can happen to a throttler: a call of one of its methods, or the
    timer of one of its buckets firing. *)
Inductive call : Type :=
| Add (th : or_array Throttle)
| Remove (hs : or_array string)
| Clear
| Fetch (request : URL) (options : option RequestInit)
| Timer (ref : nat).

Definition perform (c : call) (s : State) : State :=
  match c with
  | Add th => state_of (add th s)
  | Remove hs => remove hs s
  | Clear => clear s
  | Fetch request options => fetch request options s
  | Timer ref => timer ref s
  end.

Fixpoint calls (cs : list call) (s : State) : State :=
  match cs with
  | [] => s
  | c :: cs' => calls cs' (perform c s)
  end.

(** The bucket [b] has the rate of the throttle of [ent]: its interval,
    its tokens per interval, and its [maxTokens] as capacity, 1 when that
    is 0. *)
Definition configured (ent : Entry) (b : Bucket.t) : Prop :=
  exists ms m,
    interval (throttle ent) = Millis ms /\
    maxTokens (throttle ent) = Some m /\
    Bucket.interval b = ms /\
    Bucket.tokensPerInterval b = tokensPerInterval (throttle ent) /\
    Bucket.maxTokens b = (if (m =? 0)%Z then 1 else m)%Z.

(** Every hostname of the map has a bucket, with the rate of its
    throttle. *)
Definition well_formed (s : State) : Prop :=
  forall h ent, map s !! h = Some ent ->
    exists b, heap s !! bucket ent = Some b /\ configured ent b.


End FetchThrottler.

(** ** A throttler at work *)

Module Scenario.

Import FetchThrottler.

(** [{ hostname: 'a.com', tokensPerInterval: 1, interval: 'second' }]. *)
Definition one_per_second : Throttle :=
  mkThrottle (One "a.com"%string) 1 (Keyword "second") None None None None.

(** [{ hostname: ['a.com', 'b.com'], tokensPerInterval: 3, interval: 100,
      maxTokens: 7 }]. *)
Definition seven_shared : Throttle :=
  mkThrottle (Many ["a.com"; "b.com"]%string) 3 (Millis 100) (Some 7%Z) None None None.

(** [{ hostname: 'a.com', tokensPerInterval: 1, interval: 'second',
      maxTokens: 0 }]. *)
Definition none_allowed : Throttle :=
  mkThrottle (One "a.com"%string) 1 (Keyword "second") (Some 0%Z) None None None.

Definition a_com : URL := mkURL "a.com" ∅.

(** [{ method: 'HEAD' }]. *)
Definition head : option RequestInit :=
  Some (mkRequestInit (Some "HEAD"%string) ∅ None).

(** [new FetchThrottler(one_per_second)]. *)
Definition throttled : State :=
  match add (One one_per_second) empty with
  | Ok s => s
  | Throw _ s => s
  end.

(** The same after one [fetch('https://a.com/')]: the bucket is empty and
    its timer runs. *)
Definition spent : State := fetch a_com None throttled.

End Scenario.

(** * Properties of the bucket *)

Module BucketSpec.

Import Bucket.
Local Open Scope Z_scope.

Lemma sum_counts_app l1 l2 :
  sum_counts (l1 ++ l2) = sum_counts l1 + sum_counts l2.
Proof.
  induction l1 as [|q l1 IH]; simpl; [reflexivity|].
  rewrite IH. lia.
Qed.

Lemma sum_counts_nonneg l :
  Forall (fun q => 0 <= count q) l -> 0 <= sum_counts l.
Proof.
  induction 1 as [|q l Hq _ IH]; simpl; lia.
Qed.

Lemma affordable_left n l :
  affordable n l -> l <> [] -> 0 <= n - sum_counts l.
Proof.
  revert n. induction l as [|q l IH]; intros n Hl Hne; [congruence|].
  simpl in *. destruct Hl as [Hq Hl].
  destruct l as [|q' l].
  - simpl. lia.
  - specialize (IH _ Hl ltac:(discriminate)). lia.
Qed.

Lemma length_settle p v ps :
  length (Promise.settle p v ps) = length ps.
Proof.
  unfold Promise.settle.
  destruct (ps !! p) as [[]|]; rewrite ?length_insert; reflexivity.
Qed.

Lemma length_settle_all l ps :
  length (settle_all l ps) = length ps.
Proof.
  unfold settle_all. revert ps.
  induction l as [|q l IH]; intros ps; simpl; [reflexivity|].
  rewrite IH. apply length_settle.
Qed.

(** What the loop of [#take] computes, in one equation: a prefix [done] of
    the queue is paid for and resolved in order, the rest stays. *)
Lemma take_loop_split n q e :
  exists done rest,
    q = done ++ rest /\
    affordable n done /\
    match rest with [] => True | next :: _ => n - sum_counts done < count next end /\
    take_loop n q e =
      (n - sum_counts done, rest,
       mkEnv (settle_all done (promises e)) (resolved e ++ done)).
Proof.
  revert n e. induction q as [|next q IH]; intros n e.
  - exists [], []. simpl. rewrite app_nil_r, Z.sub_0_r. destruct e; auto.
  - simpl. destruct (Z.geb_spec n (count next)) as [Hge|Hlt].
    + destruct (IH (n - count next) (call_resolve next e))
        as (done & rest & -> & Haff & Hrest & Heq).
      exists (next :: done), rest. simpl.
      repeat split; [lia|assumption| |].
      * destruct rest; [exact I|]. lia.
      * rewrite Heq. unfold settle_all. simpl. rewrite <- app_assoc. simpl.
        replace (n - count next - sum_counts done)
          with (n - (count next + sum_counts done)) by lia.
        reflexivity.
    + exists [], (next :: q). simpl.
      rewrite app_nil_r, Z.sub_0_r. destruct e; repeat split; auto.
Qed.

(** A queue blocked at its head stays as it is, whatever follows the
    head. *)
Lemma take_loop_blocked n next rest e :
  n < count next -> take_loop n (next :: rest) e = (n, next :: rest, e).
Proof.
  intros Hlt. simpl. destruct (Z.geb_spec n (count next)); [lia|reflexivity].
Qed.

Section Frame.

Variables (b : t) (e : Env).

Lemma take_frame :
  interval (take b e).1 = interval b /\
  tokensPerInterval (take b e).1 = tokensPerInterval b /\
  maxTokens (take b e).1 = maxTokens b /\
  intervalId (take b e).1 = intervalId b.
Proof.
  unfold take. destruct (take_loop (tokens b) (queue b) e) as [[n q] e'].
  simpl. auto.
Qed.

Lemma tick_frame :
  interval (tick b e).1 = interval b /\
  tokensPerInterval (tick b e).1 = tokensPerInterval b /\
  maxTokens (tick b e).1 = maxTokens b.
Proof.
  unfold tick.
  set (b1 := set_tokens _ b).
  unfold take. destruct (take_loop (tokens b1) (queue b1) e) as [[n q] e'].
  destruct (_ && _); simpl; auto.
Qed.

Lemma removeTokens_frame n :
  interval (removeTokens n b e).1.1 = interval b /\
  tokensPerInterval (removeTokens n b e).1.1 = tokensPerInterval b /\
  maxTokens (removeTokens n b e).1.1 = maxTokens b.
Proof.
  unfold removeTokens, Promise.withResolvers, take.
  match goal with |- context [take_loop ?a ?q ?x] =>
    destruct (take_loop a q x) as [[n' q'] e'] end.
  simpl. destruct (intervalId b); simpl; [auto|].
  destruct (n' <? maxTokens b); simpl; auto.
Qed.

End Frame.

Lemma step_frame o s :
  interval (step o s).1 = interval s.1 /\
  tokensPerInterval (step o s).1 = tokensPerInterval s.1 /\
  maxTokens (step o s).1 = maxTokens s.1.
Proof.
  destruct o as [n|]; simpl.
  - apply removeTokens_frame.
  - destruct (intervalId s.1); [apply tick_frame|auto].
Qed.

Lemma run_frame tr s :
  interval (run tr s).1 = interval s.1 /\
  tokensPerInterval (run tr s).1 = tokensPerInterval s.1 /\
  maxTokens (run tr s).1 = maxTokens s.1.
Proof.
  revert s. induction tr as [|o tr IH]; intros s; simpl; [auto|].
  destruct (IH (step o s)) as (-> & -> & ->). apply step_frame.
Qed.

(** *** The three operations, each as one equation *)

Lemma take_split b e :
  exists done rest,
    queue b = done ++ rest /\
    affordable (tokens b) done /\
    blocked (tokens b - sum_counts done) rest /\
    take b e =
      (mk (tokens b - sum_counts done) (interval b) (tokensPerInterval b)
          (maxTokens b) (intervalId b) rest,
       mkEnv (settle_all done (promises e)) (resolved e ++ done)).
Proof.
  destruct (take_loop_split (tokens b) (queue b) e)
    as (done & rest & Hq & Haff & Hrest & Heq).
  exists done, rest. unfold take. rewrite Heq. auto.
Qed.

Lemma length_admitted n b e :
  length (admitted n b e) = S (length (promises e)).
Proof.
  unfold admitted. destruct (n >? maxTokens b);
    rewrite ?length_settle, length_app; simpl; lia.
Qed.

Lemma removeTokens_split n b e :
  exists done rest,
    queue b ++ [mkQueuer n (length (promises e))] = done ++ rest /\
    affordable (tokens b) done /\
    blocked (tokens b - sum_counts done) rest /\
    removeTokens n b e =
      (mk (tokens b - sum_counts done) (interval b) (tokensPerInterval b)
          (maxTokens b)
          (match intervalId b with
           | None =>
               if tokens b - sum_counts done <? maxTokens b
               then Some (mkTimer (interval b))
               else None
           | Some i => Some i
           end)
          rest,
       mkEnv (settle_all done (admitted n b e)) (resolved e ++ done),
       length (promises e)).
Proof.
  destruct (take_split
              (set_queue (queue b ++ [mkQueuer n (length (promises e))]) b)
              (mkEnv (admitted n b e) (resolved e)))
    as (done & rest & Hq & Haff & Hrest & Heq).
  exists done, rest. simpl in *.
  repeat split; try assumption.
  unfold removeTokens, Promise.withResolvers.
  fold (admitted n b e). rewrite Heq. simpl.
  destruct (intervalId b); [reflexivity|].
  destruct (_ <? _); reflexivity.
Qed.

Lemma tick_split b e :
  let n1 := Z.min (tokens b + tokensPerInterval b) (maxTokens b) in
  exists done rest,
    queue b = done ++ rest /\
    affordable n1 done /\
    blocked (n1 - sum_counts done) rest /\
    tick b e =
      (mk (n1 - sum_counts done) (interval b) (tokensPerInterval b)
          (maxTokens b)
          (if (n1 - sum_counts done =? maxTokens b) && (length rest =? 0)%nat
           then None
           else intervalId b)
          rest,
       mkEnv (settle_all done (promises e)) (resolved e ++ done)).
Proof.
  intros n1.
  destruct (take_split (set_tokens n1 b) e)
    as (done & rest & Hq & Haff & Hrest & Heq).
  exists done, rest. simpl in *.
  repeat split; try assumption.
  unfold tick. fold n1. rewrite Heq. simpl.
  destruct (_ && _); reflexivity.
Qed.

(** Paying a prefix of non-negative counts out of a non-negative level. *)
Lemma paid_bounds n done rest :
  affordable n done ->
  Forall (fun q => 0 <= count q) (done ++ rest) ->
  0 <= n ->
  0 <= n - sum_counts done <= n /\ Forall (fun q => 0 <= count q) rest.
Proof.
  intros Haff Hall Hn. apply Forall_app in Hall as [Hd Hr].
  split; [|assumption].
  pose proof (sum_counts_nonneg _ Hd).
  destruct done as [|q done]; [simpl; lia|].
  pose proof (affordable_left _ _ Haff ltac:(discriminate)). lia.
Qed.

(** A queue blocked at its head pays nothing, whatever is appended. *)
Lemma blocked_pays_nothing n q l done rest :
  q <> [] -> blocked n q ->
  q ++ l = done ++ rest -> affordable n done ->
  done = [] /\ rest = q ++ l.
Proof.
  intros Hne Hb Heq Haff.
  destruct q as [|next q]; [congruence|].
  destruct done as [|d done]; [auto|].
  simpl in *. injection Heq as <- _. lia.
Qed.

(** *** Two runs *)

(** Capacity 5, one token per second, 5 tokens at the start: a request of
    5 is resolved within the call, the next request of 1 after one
    callback. *)
Example five_then_one :
  let options := mkOptions (Some 5) (Some 1000) (Some 1) (Some 5) in
  let s1 := run [RemoveTokens 5; RemoveTokens 1] (init options) in
  let s2 := run [RemoveTokens 5; RemoveTokens 1; Tick] (init options) in
  promises s1.2 = [Promise.Fulfilled; Promise.Pending] /\
  promises s2.2 = [Promise.Fulfilled; Promise.Fulfilled] /\
  tokens s2.1 = 0.
Proof. vm_compute. repeat split; reflexivity. Qed.

(** Capacity 3, three tokens per 100 ms, no token at the start: three
    requests of 1 wait, and one callback resolves them in call order. *)
Example three_after_one_tick :
  let options := mkOptions (Some 0) (Some 100) (Some 3) (Some 3) in
  let calls := [RemoveTokens 1; RemoveTokens 1; RemoveTokens 1] in
  resolved (run calls (init options)).2 = [] /\
  resolve <$> resolved (run (calls ++ [Tick]) (init options)).2 = [0; 1; 2]%nat.
Proof. vm_compute. split; reflexivity. Qed.

(** *** Order of admission *)

Lemma step_history o s :
  history (step o s) =
    history s ++
    match o with
    | RemoveTokens n => [mkQueuer n (length (promises s.2))]
    | Tick => []
    end
  /\ length (promises (step o s).2) =
     (length (promises s.2) +
      match o with RemoveTokens _ => 1 | Tick => 0 end)%nat.
Proof.
  destruct s as [b e]. unfold history. destruct o as [n|]; simpl.
  - destruct (removeTokens_split n b e) as (done & rest & Hq & _ & _ & ->).
    simpl. rewrite length_settle_all, length_admitted.
    split; [|lia]. rewrite <- !app_assoc. f_equal. symmetry. exact Hq.
  - destruct (intervalId b) eqn:Hid.
    + destruct (tick_split b e) as (done & rest & Hq & _ & _ & ->).
      simpl. rewrite length_settle_all, app_nil_r, <- app_assoc, Hq.
      split; [reflexivity|lia].
    + simpl. rewrite app_nil_r. split; [reflexivity|lia].
Qed.

Lemma run_history tr s :
  history (run tr s) =
    history s ++ imap (fun i n => mkQueuer n (length (promises s.2) + i)) (requests tr).
Proof.
  revert s. induction tr as [|o tr IH]; intros s; simpl.
  - rewrite app_nil_r. reflexivity.
  - rewrite IH. destruct (step_history o s) as [-> ->].
    rewrite <- app_assoc. f_equal.
    destruct o as [n|]; simpl.
    + rewrite Nat.add_0_r. f_equal. apply imap_ext. intros i x _. simpl.
      f_equal. lia.
    + apply imap_ext. intros i x _. simpl. f_equal. lia.
Qed.




(** *** Conservation of tokens *)

Lemma step_ledger o s :
  ledger (step o s) =
    ledger s +
    match o, intervalId s.1 with
    | Tick, Some _ =>
        Z.min (tokens s.1 + tokensPerInterval s.1) (maxTokens s.1) - tokens s.1
    | _, _ => 0
    end.
Proof.
  destruct s as [b e]. unfold ledger. destruct o as [n|]; simpl.
  - destruct (removeTokens_split n b e) as (done & rest & _ & _ & _ & ->).
    simpl. rewrite sum_counts_app. lia.
  - destruct (intervalId b); simpl; [|lia].
    destruct (tick_split b e) as (done & rest & _ & _ & _ & ->).
    simpl. rewrite sum_counts_app. lia.
Qed.

Lemma run_ledger tr s :
  ledger (run tr s) = ledger s + refilled tr s.
Proof.
  revert s. induction tr as [|o tr IH]; intros s; simpl; [lia|].
  rewrite IH, step_ledger. lia.
Qed.

Lemma refilled_no_overflow tr s :
  no_overflow tr s = true ->
  refilled tr s = Z.of_nat (fired tr s) * tokensPerInterval s.1.
Proof.
  revert s. induction tr as [|o tr IH]; intros s H; simpl in *; [lia|].
  apply andb_true_iff in H as [Ho Htr].
  rewrite (IH _ Htr).
  destruct (step_frame o s) as (_ & -> & _).
  destruct o as [n|]; [lia|].
  destruct (intervalId s.1); [|lia].
  apply Z.leb_le in Ho. lia.
Qed.

(** *** Bounds of the level *)

Lemma step_within_bounds o s :
  within_bounds s.1 ->
  match o with RemoveTokens n => 0 <= n | Tick => True end ->
  within_bounds (step o s).1.
Proof.
  destruct s as [b e]. unfold within_bounds. simpl.
  intros (Hr & Ht & Hq) Ho. destruct o as [n|]; simpl.
  - destruct (removeTokens_split n b e) as (done & rest & Heq & Haff & _ & ->).
    simpl. assert (Hall : Forall (fun q => 0 <= count q) (done ++ rest)).
    { rewrite <- Heq. apply Forall_app. split; [assumption|].
      constructor; [exact Ho|constructor]. }
    destruct (paid_bounds _ _ _ Haff Hall ltac:(lia)) as [? ?].
    repeat split; [assumption|lia|lia|assumption].
  - destruct (intervalId b); simpl; [|auto].
    destruct (tick_split b e) as (done & rest & Heq & Haff & _ & ->).
    simpl. rewrite Heq in Hq.
    destruct (paid_bounds _ _ _ Haff Hq ltac:(lia)) as [? ?].
    repeat split; [assumption|lia|lia|assumption].
Qed.

Lemma run_within_bounds tr s :
  within_bounds s.1 ->
  Forall (fun n => 0 <= n) (requests tr) ->
  within_bounds (run tr s).1.
Proof.
  revert s. induction tr as [|o tr IH]; intros s Hs Htr; simpl; [exact Hs|].
  apply IH.
  - apply step_within_bounds; [exact Hs|].
    destruct o; [|exact I]. simpl in Htr. inversion Htr; assumption.
  - destruct o; simpl in Htr; [inversion Htr|]; assumption.
Qed.

(** C7, as the code has it.  The constructor stores [initialTokens] as it
    is given.  For a bucket constructed with
    [0 <= initialTokens <= maxTokens] and [0 <= tokensPerInterval], and
    requests of non-negative counts, [0 <= tokens <= maxTokens] holds
    after every run. *)
Theorem level_within_bounds options tr :
  0 <= tokens (new options) <= maxTokens (new options) ->
  0 <= tokensPerInterval (new options) ->
  Forall (fun n => 0 <= n) (requests tr) ->
  0 <= tokens (run tr (init options)).1 <= maxTokens (run tr (init options)).1.
Proof.
  intros Ht Hr Htr.
  apply (run_within_bounds tr (init options)); [|exact Htr].
  split; [exact Hr|]. split; [exact Ht|]. constructor.
Qed.

Lemma level_within_bounds_witness :
  let options := mkOptions (Some 2) None (Some 3) (Some 5) in
  let tr := [RemoveTokens 2; RemoveTokens 4; Tick; Tick; RemoveTokens 0] in
  0 <= tokens (run tr (init options)).1 <= maxTokens (run tr (init options)).1.
Proof.
  apply (level_within_bounds (mkOptions (Some 2) None (Some 3) (Some 5))
           [RemoveTokens 2; RemoveTokens 4; Tick; Tick; RemoveTokens 0]).
  - simpl. lia.
  - simpl. lia.
  - simpl. repeat constructor; lia.
Defined.

(** C7, counterexample: [new Bucket({ initialTokens: 10, maxTokens: 5 })]
    holds 10 tokens. *)
Lemma constructor_does_not_clamp :
  let b := new (mkOptions (Some 10) None None (Some 5)) in
  tokens b = 10 /\ maxTokens b = 5 /\ ~ (0 <= tokens b <= maxTokens b).
Proof. simpl. repeat split; lia. Qed.

(** *** The timer *)

Lemma removeTokens_timer_exact n b e :
  timer_needed b ->
  0 <= n <= maxTokens b ->
  timer_exact (removeTokens n b e).1.1.
Proof.
  intros (Hb & Hq & Hid) Hn.
  destruct (removeTokens_split n b e) as (done & rest & Heq & Haff & Hrest & ->).
  unfold timer_exact, timer_needed. simpl.
  assert (Hall : Forall (fun q => 0 <= count q <= maxTokens b) (done ++ rest)).
  { rewrite <- Heq. apply Forall_app. split; [assumption|].
    constructor; [exact Hn|constructor]. }
  apply Forall_app in Hall as [Hdone Hrst].
  assert (Hlevel : tokens b - sum_counts done <= tokens b).
  { assert (0 <= sum_counts done); [|lia].
    apply sum_counts_nonneg. eapply Forall_impl; [exact Hdone|].
    simpl. intros; lia. }
  assert (Hwait : rest <> [] -> tokens b - sum_counts done < maxTokens b).
  { destruct rest as [|next rest]; [congruence|]. intros _.
    simpl in Hrest. inversion Hrst; subst. lia. }
  assert (Hkeep : queue b <> [] -> rest <> []).
  { intros Hne.
    destruct (blocked_pays_nothing _ _ _ _ _ Hne Hb Heq Haff) as [_ ->].
    destruct (queue b); [congruence|discriminate]. }
  repeat split; try assumption.
  - intros Hon. destruct rest; [|right; discriminate].
    left. destruct (intervalId b) eqn:Ei.
    + destruct (Hid ltac:(discriminate)) as [?|Hne]; [lia|].
      destruct (Hkeep Hne). reflexivity.
    + destruct (Z.ltb_spec (tokens b - sum_counts done) (maxTokens b));
        [assumption|congruence].
  - intros Hor. assert (tokens b - sum_counts done < maxTokens b) as Hlt.
    { destruct Hor; auto. }
    destruct (intervalId b); [discriminate|].
    destruct (Z.ltb_spec (tokens b - sum_counts done) (maxTokens b));
      [discriminate|lia].
Qed.

Lemma tick_timer_exact b e :
  timer_needed b ->
  intervalId b <> None ->
  timer_exact (tick b e).1.
Proof.
  intros (Hb & Hq & Hid) Hon.
  destruct (tick_split b e) as (done & rest & Heq & Haff & Hrest & ->).
  unfold timer_exact, timer_needed. simpl.
  set (n1 := Z.min (tokens b + tokensPerInterval b) (maxTokens b)) in *.
  rewrite Heq in Hq. apply Forall_app in Hq as [Hdone Hrst].
  assert (Hlevel : n1 - sum_counts done <= maxTokens b).
  { assert (0 <= sum_counts done); [|lia].
    apply sum_counts_nonneg. eapply Forall_impl; [exact Hdone|].
    simpl. intros; lia. }
  repeat split; try assumption.
  - intros Hstill. destruct rest; [|right; discriminate].
    left. simpl in Hstill.
    destruct (Z.eqb_spec (n1 - sum_counts done) (maxTokens b)); simpl in Hstill;
      [congruence|lia].
  - intros Hor.
    destruct (Z.eqb_spec (n1 - sum_counts done) (maxTokens b)); simpl;
      [|assumption].
    destruct rest; simpl; [|assumption].
    destruct Hor; [lia|congruence].
Qed.

Lemma step_timer o s :
  timer_needed s.1 ->
  match o with RemoveTokens n => 0 <= n <= maxTokens s.1 | Tick => True end ->
  timer_exact (step o s).1 \/ (o = Tick /\ step o s = s).
Proof.
  intros Hs Ho. destruct o as [n|]; simpl.
  - left. apply removeTokens_timer_exact; assumption.
  - destruct (intervalId s.1) eqn:Ei.
    + left. apply tick_timer_exact; [assumption|congruence].
    + right. auto.
Qed.

Lemma run_timer_exact tr s :
  timer_needed s.1 ->
  Forall (fun n => 0 <= n <= maxTokens s.1) (requests tr) ->
  timer_exact s.1 \/ requests tr <> [] ->
  timer_exact (run tr s).1.
Proof.
  revert s. induction tr as [|o tr IH]; intros s Hs Htr Hor; simpl.
  - destruct Hor as [?|Hne]; [assumption|].
    exfalso. apply Hne. reflexivity.
  - assert (Ho : match o with
                 | RemoveTokens n => 0 <= n <= maxTokens s.1
                 | Tick => True
                 end).
    { destruct o; [|exact I]. simpl in Htr. inversion Htr; assumption. }
    assert (Htr' : Forall (fun n => 0 <= n <= maxTokens (step o s).1) (requests tr)).
    { destruct (step_frame o s) as (_ & _ & ->).
      destruct o; simpl in Htr; [inversion Htr|]; assumption. }
    destruct (step_timer o s Hs Ho) as [Hex|[-> Hsame]].
    + apply IH; [apply Hex|assumption|left; assumption].
    + rewrite Hsame in *. apply IH; [assumption|assumption|].
      destruct Hor as [Hex|Hne]; [left; exact Hex|right; exact Hne].
Qed.

(** C2, as the code has it.  A new bucket has no timer, whatever its
    level: the timer is started by [removeTokens].  For a bucket
    constructed full ([initialTokens >= maxTokens]), or once
    [removeTokens] has been called, and with every count requested within
    [0 .. maxTokens], the timer is set exactly when
    [tokens < maxTokens] or the queue is not empty; so it is cleared by
    the callback that leaves the bucket full with an empty queue. *)
Theorem timer_runs_exactly_when_needed options tr :
  Forall (fun n => 0 <= n <= maxTokens (new options)) (requests tr) ->
  maxTokens (new options) <= tokens (new options) \/ requests tr <> [] ->
  intervalId (run tr (init options)).1 <> None <->
  tokens (run tr (init options)).1 < maxTokens (run tr (init options)).1
  \/ queue (run tr (init options)).1 <> [].
Proof.
  intros Htr Hor.
  assert (Hneeded : timer_needed (init options).1).
  { repeat split; [constructor|]. simpl. congruence. }
  destruct (run_timer_exact tr (init options) Hneeded Htr) as [(_ & _ & H1) H2].
  - destruct Hor as [Hfull|Hreq]; [left|right; exact Hreq].
    split; [exact Hneeded|]. intros [Hlt|Hne].
    + change (tokens (new options) < maxTokens (new options)) in Hlt. lia.
    + exfalso. apply Hne. reflexivity.
  - split; assumption.
Qed.

Lemma timer_runs_exactly_when_needed_witness :
  let options := mkOptions (Some 0) None None None in
  let tr := [RemoveTokens 1; Tick] in
  intervalId (run tr (init options)).1 <> None <->
  tokens (run tr (init options)).1 < maxTokens (run tr (init options)).1
  \/ queue (run tr (init options)).1 <> [].
Proof.
  apply (timer_runs_exactly_when_needed (mkOptions (Some 0) None None None)
           [RemoveTokens 1; Tick]).
  - simpl. repeat constructor; lia.
  - right. simpl. discriminate.
Defined.

(** C2, counterexample: [new Bucket({ initialTokens: 0 })] is below its
    capacity of 1 and has no timer. *)
Lemma new_bucket_below_capacity_has_no_timer :
  let b := (run [] (init (mkOptions (Some 0) None None None))).1 in
  tokens b < maxTokens b /\ intervalId b = None /\
  ~ (intervalId b <> None <-> tokens b < maxTokens b \/ queue b <> []).
Proof.
  simpl. split; [lia|]. split; [reflexivity|].
  intros [_ H]. apply H; [left; lia|reflexivity].
Qed.

(** *** Requests of zero tokens *)

Lemma step_blocked o s :
  blocked (tokens s.1) (queue s.1) ->
  blocked (tokens (step o s).1) (queue (step o s).1).
Proof.
  destruct s as [b e]. intros Hb. destruct o as [n|]; simpl.
  - destruct (removeTokens_split n b e) as (done & rest & _ & _ & Hrest & ->).
    exact Hrest.
  - destruct (intervalId b); [|exact Hb].
    destruct (tick_split b e) as (done & rest & _ & _ & Hrest & ->).
    exact Hrest.
Qed.

Lemma run_blocked tr s :
  blocked (tokens s.1) (queue s.1) ->
  blocked (tokens (run tr s).1) (queue (run tr s).1).
Proof.
  revert s. induction tr as [|o tr IH]; intros s Hs; simpl; [exact Hs|].
  apply IH, step_blocked, Hs.
Qed.

Lemma lookup_new_promise (ps : list Promise.state) v :
  Promise.settle (length ps) v (ps ++ [Promise.Pending]) !! length ps = Some v.
Proof.
  unfold Promise.settle.
  rewrite lookup_app_r, Nat.sub_diag by lia. simpl.
  apply list_lookup_insert_eq. rewrite length_app. simpl. lia.
Qed.

(** What a [removeTokens(0)] does within the call, in every state a
    bucket reaches: the level stays; on an empty queue, with a level and
    a capacity that are not negative, it is resolved; behind queued
    requests it is queued and pending. *)
Lemma removeTokens_zero_in_call options tr :
  let s := run tr (init options) in
  let r := removeTokens 0 s.1 s.2 in
  tokens r.1.1 = tokens s.1 /\
  (queue s.1 = [] -> 0 <= tokens s.1 -> 0 <= maxTokens s.1 ->
   queue r.1.1 = [] /\
   promises r.1.2 !! r.2 = Some Promise.Fulfilled /\
   resolved r.1.2 = resolved s.2 ++ [mkQueuer 0 r.2]) /\
  (queue s.1 <> [] -> 0 <= maxTokens s.1 ->
   queue r.1.1 = queue s.1 ++ [mkQueuer 0 r.2] /\
   promises r.1.2 !! r.2 = Some Promise.Pending /\
   resolved r.1.2 = resolved s.2).
Proof.
  intros s r.
  assert (Hb : blocked (tokens s.1) (queue s.1)).
  { apply run_blocked. exact I. }
  subst r. destruct s as [b e]. simpl in *.
  destruct (removeTokens_split 0 b e) as (done & rest & Heq & Haff & Hrest & ->).
  simpl.
  assert (Hadm : 0 <= maxTokens b ->
                 admitted 0 b e = promises e ++ [Promise.Pending]).
  { intros Hm. unfold admitted.
    destruct (Z.gtb_spec 0 (maxTokens b)); [lia|reflexivity]. }
  destruct (queue b) as [|next q] eqn:Eq.
  - simpl in Heq. split; [|split; [|congruence]].
    + destruct done as [|d [|d' done]]; simpl in *.
      * lia.
      * injection Heq as <- <-. simpl. lia.
      * destruct done; discriminate.
    + intros _ Ht Hm. destruct done as [|d done].
      * simpl in Heq. subst rest. simpl in Hrest. lia.
      * injection Heq as <- Hnil.
        symmetry in Hnil. apply app_eq_nil in Hnil as [-> ->].
        rewrite (Hadm Hm). unfold settle_all. simpl.
        rewrite lookup_new_promise. auto.
  - destruct (blocked_pays_nothing (tokens b) (next :: q)
                [mkQueuer 0 (length (promises e))] done rest
                ltac:(discriminate) Hb Heq Haff) as [-> ->].
    simpl. split; [lia|]. split; [discriminate|].
    intros _ Hm. rewrite app_nil_r, (Hadm Hm).
    rewrite lookup_app_r, Nat.sub_diag by lia. auto.
Qed.

(** C8, counterexample: on a bucket with 0 tokens and a request of 1
    token waiting, [removeTokens(0)] is queued behind it and its promise
    stays pending. *)
Lemma removeTokens_zero_waits_in_line :
  let s := run [RemoveTokens 1] (init (mkOptions (Some 0) None None None)) in
  let r := removeTokens 0 s.1 s.2 in
  queue r.1.1 = [mkQueuer 1 0; mkQueuer 0 1] /\
  promises r.1.2 !! r.2 = Some Promise.Pending /\
  promises r.1.2 !! r.2 <> Some Promise.Fulfilled.
Proof. vm_compute. repeat split; discriminate. Qed.

(** *** What the operations leave alone *)

(** C10, as the code has it.  [removeTokens], [#take] and the timer
    callback change the level, the queue and the timer handle
    [intervalId] ([removeTokens] sets it through [#start], the callback
    clears it); [interval], [tokensPerInterval] and [maxTokens] are the
    same after each of them. *)
Theorem operations_keep_configuration b e :
  (forall n,
      interval (removeTokens n b e).1.1 = interval b /\
      tokensPerInterval (removeTokens n b e).1.1 = tokensPerInterval b /\
      maxTokens (removeTokens n b e).1.1 = maxTokens b) /\
  (interval (take b e).1 = interval b /\
   tokensPerInterval (take b e).1 = tokensPerInterval b /\
   maxTokens (take b e).1 = maxTokens b /\
   intervalId (take b e).1 = intervalId b) /\
  (interval (tick b e).1 = interval b /\
   tokensPerInterval (tick b e).1 = tokensPerInterval b /\
   maxTokens (tick b e).1 = maxTokens b).
Proof.
  split; [|split].
  - intros n. apply removeTokens_frame.
  - apply take_frame.
  - apply tick_frame.
Qed.

(** C10, counterexample: [removeTokens(1)] on a new bucket of one token
    sets [intervalId], which is neither the level nor the queue. *)
Lemma removeTokens_sets_intervalId :
  let b := new (mkOptions None None None None) in
  intervalId b = None /\
  intervalId (removeTokens 1 b empty_env).1.1 = Some (mkTimer 1000) /\
  ~ (forall n b e, intervalId (removeTokens n b e).1.1 = intervalId b).
Proof.
  split; [reflexivity|]. split; [reflexivity|].
  intros H.
  specialize (H 1 (new (mkOptions None None None None)) empty_env).
  vm_compute in H. discriminate.
Qed.

(** *** Requests above the capacity *)

(** On any bucket that is not over its capacity, a request above the
    capacity is rejected, costs nothing, and is appended to the queue. *)
Lemma removeTokens_above_capacity n b e :
  blocked (tokens b) (queue b) ->
  tokens b <= maxTokens b ->
  maxTokens b < n ->
  let r := removeTokens n b e in
  promises r.1.2 !! r.2
    = Some (Promise.Rejected (Promise.RangeError n (maxTokens b))) /\
  tokens r.1.1 = tokens b /\
  queue r.1.1 = queue b ++ [mkQueuer n r.2].
Proof.
  intros Hb Hle Hn r. subst r.
  destruct (removeTokens_split n b e) as (done & rest & Heq & Haff & _ & ->).
  simpl.
  assert (Hdone : done = [] /\ rest = queue b ++ [mkQueuer n (length (promises e))]).
  { destruct (queue b) as [|next q] eqn:Eq.
    - destruct done as [|d done]; [auto|].
      simpl in Heq. injection Heq as <- _. simpl in Haff. lia.
    - apply (blocked_pays_nothing (tokens b) (next :: q)); try assumption.
      discriminate. }
  destruct Hdone as [-> ->]. simpl.
  split; [|split; [lia|reflexivity]].
  unfold admitted. destruct (Z.gtb_spec n (maxTokens b)); [|lia].
  apply lookup_new_promise.
Qed.

(** C1, the code at [new Bucket({ initialTokens: 5 })]:
    [removeTokens(10)] rejects its promise and goes on to push the
    request, which [#take] can never pay; the queue is not empty any more,
    no timer is started, and a following [removeTokens(1)] stays pending
    behind it although 5 tokens are there. *)
Theorem removeTokens_above_capacity_is_queued :
  let b := new (mkOptions (Some 5) None None None) in
  let r1 := removeTokens 10 b empty_env in
  let r2 := removeTokens 1 r1.1.1 r1.1.2 in
  promises r1.1.2 !! r1.2 = Some (Promise.Rejected (Promise.RangeError 10 5)) /\
  tokens r1.1.1 = 5 /\
  queue b = [] /\
  queue r1.1.1 = [mkQueuer 10 0] /\
  intervalId r1.1.1 = None /\
  queue r2.1.1 = [mkQueuer 10 0; mkQueuer 1 1] /\
  promises r2.1.2 !! r2.2 = Some Promise.Pending /\
  tokens r2.1.1 = 5 /\
  intervalId r2.1.1 = None.
Proof. vm_compute. repeat split; reflexivity. Qed.

End BucketSpec.

(** * Properties of the rate limiter *)

Module ThrottlerSpec.

Import FetchThrottler.

(** Two hostnames of one throttle share its bucket; removing one leaves
    the other on that bucket. *)
Example shared_bucket :
  match add (One Scenario.seven_shared) empty with
  | Ok s =>
      bucket <$> map s !! "a.com"%string = Some 0%nat /\
      bucket <$> map s !! "b.com"%string = Some 0%nat /\
      bucket <$> map (remove (One "a.com"%string) s) !! "b.com"%string = Some 0%nat /\
      map (remove (One "a.com"%string) s) !! "a.com"%string = None
  | Throw _ _ => False
  end.
Proof. vm_compute. repeat split; reflexivity. Qed.

Lemma remove_frame hs s :
  heap (remove hs s) = heap s /\ env (remove hs s) = env s /\
  awaiting (remove hs s) = awaiting s /\ sent (remove hs s) = sent s.
Proof.
  unfold remove. generalize (to_array hs) as l. intros l. revert s.
  induction l as [|h l IH]; intros s; simpl; [auto|].
  destruct (IH (removeThrottle h s)) as (-> & -> & -> & ->). auto.
Qed.

Lemma remove_lookup_in hs s h :
  h ∈ to_array hs -> map (remove hs s) !! h = None.
Proof.
  unfold remove. generalize (to_array hs) as l. intros l. revert s.
  assert (Hkeep : forall l s, map s !! h = None ->
                    map (foldl (fun s h => removeThrottle h s) s l) !! h = None).
  { clear. intros l. induction l as [|k l IH]; intros s Hs; simpl; [exact Hs|].
    apply IH. simpl. destruct (decide (k = h)) as [->|Hne].
    - apply lookup_delete_eq.
    - rewrite lookup_delete_ne by exact Hne. exact Hs. }
  induction l as [|k l IH]; intros s Hin; [inversion Hin|].
  simpl. apply elem_of_cons in Hin as [->|Hin].
  - apply Hkeep. simpl. apply lookup_delete_eq.
  - apply IH. exact Hin.
Qed.

Lemma set_all_lookup (v : Entry) (hs : list string) (m : gmap string Entry) h :
  h ∈ hs \/ m !! h = Some v ->
  foldl (fun m h => <[h := v]> m) m hs !! h = Some v.
Proof.
  revert m. induction hs as [|k hs IH]; intros m [Hin|Hm]; simpl.
  - inversion Hin.
  - exact Hm.
  - apply IH. apply elem_of_cons in Hin as [->|Hin]; [right|left; exact Hin].
    apply lookup_insert_eq.
  - apply IH. right. destruct (decide (k = h)) as [->|Hne].
    + apply lookup_insert_eq.
    + rewrite lookup_insert_ne by exact Hne. exact Hm.
Qed.

Lemma addThrottle_valid th s ms :
  interval_ms (interval th) = Some ms ->
  addThrottle th s = Ok (install ms th s).
Proof.
  unfold addThrottle, interval_ms.
  destruct (interval th) as [ms'|k]; [intros [= ->]|intros ->]; reflexivity.
Qed.

(** C9, as the code has it.  [add] with a throttle of a valid interval,
    for a hostname that has a throttle with a bucket of the heap: the
    hostname now maps to the new throttle with a bucket created by this
    call, distinct from the old one; its level is the throttle's
    [maxTokens] ([tokensPerInterval] when none is given), its queue is
    empty and it has no timer; the old bucket, its level and its queue are
    as they were.  The capacity of the new bucket is its level, so it
    starts full, unless that level is 0: the capacity is then 1. *)
Theorem add_replaces_bucket th h old s ms :
  interval_ms (interval th) = Some ms ->
  h ∈ to_array (t_hostname th) ->
  map s !! h = Some old ->
  (bucket old < length (heap s))%nat ->
  exists s' th' b,
    add (One th) s = Ok s' /\
    map s' !! h = Some (mkEntry th' (length (heap s))) /\
    maxTokens th' = Some (default (tokensPerInterval th) (maxTokens th)) /\
    heap s !! length (heap s) = None /\
    heap s' !! length (heap s) = Some b /\
    Some (Bucket.tokens b) = maxTokens th' /\
    Bucket.queue b = [] /\
    Bucket.intervalId b = None /\
    Bucket.maxTokens b
    = (if (Bucket.tokens b =? 0)%Z then 1%Z else Bucket.tokens b) /\
    (Bucket.tokens b <> 0%Z -> Bucket.tokens b = Bucket.maxTokens b) /\
    length (heap s) <> bucket old /\
    heap s' !! bucket old = heap s !! bucket old.
Proof.
  intros Hms Hin Hold Hlt.
  unfold add. cbn [to_array add_loop].
  rewrite (addThrottle_valid _ _ _ Hms). unfold install.
  destruct (remove_frame (t_hostname th) s) as (Hheap & _).
  rewrite !Hheap.
  eexists _, (sanitize ms th), _. split; [reflexivity|]. simpl.
  repeat split.
  - apply set_all_lookup. left. exact Hin.
  - apply lookup_ge_None. lia.
  - rewrite lookup_app_r, Nat.sub_diag by lia. reflexivity.
  - reflexivity.
  - reflexivity.
  - reflexivity.
  - reflexivity.
  - simpl. intros Hne.
    destruct (Z.eqb_spec (default (tokensPerInterval th) (maxTokens th)) 0);
      [contradiction|reflexivity].
  - lia.
  - apply lookup_app_l. exact Hlt.
Qed.

Lemma add_replaces_bucket_witness :
  exists s' th' b,
    add (One Scenario.seven_shared) Scenario.spent = Ok s' /\
    map s' !! "a.com"%string = Some (mkEntry th' 1) /\
    maxTokens th' = Some 7%Z /\
    heap Scenario.spent !! 1%nat = None /\
    heap s' !! 1%nat = Some b /\
    Some (Bucket.tokens b) = maxTokens th' /\
    Bucket.queue b = [] /\
    Bucket.intervalId b = None /\
    Bucket.maxTokens b
    = (if (Bucket.tokens b =? 0)%Z then 1%Z else Bucket.tokens b) /\
    (Bucket.tokens b <> 0%Z -> Bucket.tokens b = Bucket.maxTokens b) /\
    1%nat <> 0%nat /\
    heap s' !! 0%nat = heap Scenario.spent !! 0%nat.
Proof.
  apply (add_replaces_bucket Scenario.seven_shared "a.com"%string
           (mkEntry (sanitize 1000 Scenario.one_per_second) 0)
           Scenario.spent 100%Z).
  - reflexivity.
  - simpl. repeat constructor.
  - vm_compute. reflexivity.
  - vm_compute. lia.
Defined.

(** C9, counterexample: replacing the throttle of [a.com] by one with
    [maxTokens: 0] installs a bucket with no token and a capacity of 1:
    it does not start full, and the first [fetch] waits for the timer. *)
Lemma add_with_maxTokens_zero_starts_empty :
  match add (One Scenario.none_allowed) Scenario.spent with
  | Ok s' =>
      bucket <$> map s' !! "a.com"%string = Some 1%nat /\
      Bucket.tokens <$> heap s' !! 1%nat = Some 0%Z /\
      Bucket.maxTokens <$> heap s' !! 1%nat = Some 1%Z /\
      Bucket.tokens <$> heap s' !! 1%nat <> Bucket.maxTokens <$> heap s' !! 1%nat /\
      sent (fetch Scenario.a_com None s') = sent s' /\
      fst <$> awaiting (fetch Scenario.a_com None s') = [1%nat] /\
      Bucket.promises (env (fetch Scenario.a_com None s')) !! 1%nat
      = Some Promise.Pending
  | Throw _ _ => False
  end.
Proof. vm_compute. repeat split; try reflexivity. discriminate. Qed.

(** C6, as the code has it.  [remove] deletes the entries of the
    hostnames it is given and [clear] empties the map; neither touches a
    bucket, so a timer that runs keeps running. *)
Theorem remove_and_clear_only_unmap s hs h :
  h ∈ to_array hs ->
  map (remove hs s) !! h = None /\
  heap (remove hs s) = heap s /\
  map (clear s) = ∅ /\
  heap (clear s) = heap s.
Proof.
  intros Hin. split; [apply remove_lookup_in, Hin|].
  split; [apply remove_frame|]. split; reflexivity.
Qed.

Lemma remove_and_clear_only_unmap_witness :
  map (remove (One "a.com"%string) Scenario.spent) !! "a.com"%string = None /\
  heap (remove (One "a.com"%string) Scenario.spent) = heap Scenario.spent /\
  map (clear Scenario.spent) = ∅ /\
  heap (clear Scenario.spent) = heap Scenario.spent.
Proof.
  apply (remove_and_clear_only_unmap Scenario.spent (One "a.com"%string)).
  simpl. repeat constructor.
Defined.

(** C6, counterexample: after one [fetch] the bucket of [a.com] is empty
    and its timer runs; [a.com] is the only hostname of its throttle, and
    after [remove('a.com')], and after [clear()], the timer still
    runs. *)
Lemma remove_leaves_timer_running :
  let s := Scenario.spent in
  bucket <$> map s !! "a.com"%string = Some 0%nat /\
  Bucket.intervalId <$> heap s !! 0%nat = Some (Some (Bucket.mkTimer 1000)) /\
  map (remove (One "a.com"%string) s) = ∅ /\
  Bucket.intervalId <$> heap (remove (One "a.com"%string) s) !! 0%nat
    = Some (Some (Bucket.mkTimer 1000)) /\
  Bucket.intervalId <$> heap (clear s) !! 0%nat
    = Some (Some (Bucket.mkTimer 1000)) /\
  Bucket.intervalId <$> heap (remove (One "a.com"%string) s) !! 0%nat <> Some None /\
  Bucket.intervalId <$> heap (clear s) !! 0%nat <> Some None.
Proof. vm_compute. repeat split; try reflexivity; discriminate. Qed.

(** Whatever predicate a throttle carries, [fetch] does the same to the
    buckets, the promises and the network. *)
Lemma fetch_never_reads_shouldThrottle f g th ref h request options s :
  let s_f := set_map (<[h := mkEntry (with_shouldThrottle f th) ref]> (map s)) s in
  let s_g := set_map (<[h := mkEntry (with_shouldThrottle g th) ref]> (map s)) s in
  heap (fetch request options s_f) = heap (fetch request options s_g) /\
  env (fetch request options s_f) = env (fetch request options s_g) /\
  awaiting (fetch request options s_f) = awaiting (fetch request options s_g) /\
  sent (fetch request options s_f) = sent (fetch request options s_g).
Proof.
  intros s_f s_g. unfold fetch, s_f, s_g. simpl.
  destruct (decide (h = hostname request)) as [->|Hne].
  - rewrite !lookup_insert_eq. simpl.
    destruct (heap s !! ref) as [b|]; [|auto].
    change (merge (with_shouldThrottle f th) request options)
      with (merge (with_shouldThrottle g th) request options).
    destruct (Bucket.removeTokens _ b (env s)) as [[b' e'] promise].
    unfold flush. simpl.
    destruct (resume _ _) as [waiting ready]. simpl. auto.
  - rewrite !lookup_insert_ne by exact Hne.
    destruct (map s !! hostname request) as [ent|]; [|auto].
    destruct (heap s !! bucket ent) as [b|]; [|auto].
    destruct (Bucket.removeTokens _ b (env s)) as [[b' e'] promise].
    unfold flush. simpl.
    destruct (resume _ _) as [waiting ready]. simpl. auto.
Qed.

(** C5, the code at a throttler with
    [{ hostname: 'a.com', tokensPerInterval: 1, interval: 'second' }]:
    the throttle's [shouldThrottle] is the default and is [false] for a
    [HEAD] request, yet [fetch('https://a.com/', { method: 'HEAD' })]
    takes the bucket's only token, and a second such call is left waiting
    for the bucket instead of being sent. *)
Theorem fetch_ignores_shouldThrottle :
  let s0 := Scenario.throttled in
  let s1 := fetch Scenario.a_com Scenario.head s0 in
  let s2 := fetch Scenario.a_com Scenario.head s1 in
  (map s0 !! "a.com"%string ≫= fun ent =>
     shouldThrottle (throttle ent) ≫= fun f =>
       Some (f (mkRequest Scenario.a_com (default empty_init Scenario.head)),
             f (merge (throttle ent) Scenario.a_com Scenario.head)))
  = Some (false, false) /\
  Bucket.tokens <$> heap s0 !! 0%nat = Some 1%Z /\
  Bucket.tokens <$> heap s1 !! 0%nat = Some 0%Z /\
  length (sent s1) = 1%nat /\
  length (sent s2) = 1%nat /\
  fst <$> awaiting s2 = [1%nat] /\
  Bucket.promises (env s2) !! 1%nat = Some Promise.Pending.
Proof. vm_compute. repeat split; reflexivity. Qed.

End ThrottlerSpec.

(** * Further properties of the bucket *)

Module BucketMore.

Import Bucket.
Local Open Scope Z_scope.

(** *** Promises settle once *)

Lemma settle_keeps p v ps i x :
  ps !! i = Some x -> x <> Promise.Pending ->
  Promise.settle p v ps !! i = Some x.
Proof.
  intros Hi Hx. unfold Promise.settle.
  destruct (ps !! p) as [[| |]|] eqn:Ep; try exact Hi.
  rewrite list_lookup_insert_ne; [exact Hi|].
  intros <-. congruence.
Qed.

Lemma settle_other p v ps i :
  i <> p -> Promise.settle p v ps !! i = ps !! i.
Proof.
  intros Hne. unfold Promise.settle.
  destruct (ps !! p) as [[| |]|]; try reflexivity.
  apply list_lookup_insert_ne. congruence.
Qed.

Lemma settle_fulfilled_lookup p ps i :
  Promise.settle p Promise.Fulfilled ps !! i
  = if decide (i = p) then fulfil (ps !! i) else ps !! i.
Proof.
  destruct (decide (i = p)) as [->|Hne]; [|apply settle_other, Hne].
  unfold Promise.settle.
  destruct (ps !! p) as [[| |]|] eqn:Ep; rewrite ?Ep; try reflexivity.
  simpl. apply list_lookup_insert_eq. eapply lookup_lt_Some, Ep.
Qed.

Lemma fulfil_fulfil x : fulfil (fulfil x) = fulfil x.
Proof. destruct x as [[| |]|]; reflexivity. Qed.

Lemma settle_all_lookup l ps i :
  settle_all l ps !! i
  = if decide (i ∈ resolve <$> l) then fulfil (ps !! i) else ps !! i.
Proof.
  unfold settle_all. revert ps.
  induction l as [|q l IH]; intros ps; cbn [foldl].
  - rewrite decide_False; [reflexivity|].
    rewrite fmap_nil. apply not_elem_of_nil.
  - rewrite IH, settle_fulfilled_lookup, fmap_cons. clear IH.
    destruct (decide (i = resolve q)) as [->|Hq].
    + rewrite (decide_True (P := resolve q ∈ resolve q :: (resolve <$> l)))
        by constructor.
      destruct (decide _); [apply fulfil_fulfil|reflexivity].
    + destruct (decide (i ∈ resolve <$> l)) as [Hl|Hl].
      * rewrite decide_True by (right; exact Hl). reflexivity.
      * rewrite decide_False; [reflexivity|].
        intros [?|?]%elem_of_cons; contradiction.
Qed.

Lemma settle_all_keeps l ps i x :
  ps !! i = Some x -> x <> Promise.Pending ->
  settle_all l ps !! i = Some x.
Proof.
  intros Hi Hx. rewrite settle_all_lookup, Hi.
  destruct (decide _); [|reflexivity].
  destruct x; [congruence|reflexivity|reflexivity].
Qed.

Lemma admitted_keeps n b e i x :
  promises e !! i = Some x -> admitted n b e !! i = Some x.
Proof.
  intros Hi. pose proof (lookup_lt_Some _ _ _ Hi) as Hlt.
  assert (Happ : (promises e ++ [Promise.Pending]) !! i = Some x).
  { apply lookup_app_l_Some, Hi. }
  unfold admitted. destruct (n >? maxTokens b); [|exact Happ].
  rewrite settle_other by lia. exact Happ.
Qed.

Lemma step_keeps_settled o s i x :
  promises s.2 !! i = Some x -> x <> Promise.Pending ->
  promises (step o s).2 !! i = Some x.
Proof.
  destruct s as [b e]. simpl. intros Hi Hx. destruct o as [n|]; simpl.
  - destruct (BucketSpec.removeTokens_split n b e)
      as (done & rest & _ & _ & _ & ->).
    simpl. apply settle_all_keeps; [|exact Hx]. apply admitted_keeps, Hi.
  - destruct (intervalId b); [|exact Hi].
    destruct (BucketSpec.tick_split b e) as (done & rest & _ & _ & _ & ->).
    simpl. apply settle_all_keeps; assumption.
Qed.

(** X1. A promise that is fulfilled or rejected keeps that state whatever
    the bucket does afterwards. *)
Theorem settled_promise_stays tr s i x :
  promises s.2 !! i = Some x ->
  x <> Promise.Pending ->
  promises (run tr s).2 !! i = Some x.
Proof.
  revert s. induction tr as [|o tr IH]; intros s Hi Hx; simpl; [exact Hi|].
  apply IH; [|exact Hx]. apply step_keeps_settled; assumption.
Qed.

Lemma settled_promise_stays_witness :
  let s := run [RemoveTokens 1; RemoveTokens 9]
             (init (mkOptions (Some 1) None None None)) in
  promises (run [Tick; RemoveTokens 0; Tick] s).2 !! 1%nat
  = Some (Promise.Rejected (Promise.RangeError 9 1)).
Proof.
  apply (settled_promise_stays [Tick; RemoveTokens 0; Tick]
           (run [RemoveTokens 1; RemoveTokens 9]
              (init (mkOptions (Some 1) None None None)))
           1%nat (Promise.Rejected (Promise.RangeError 9 1))).
  - reflexivity.
  - discriminate.
Defined.

(** *** Which promise is rejected *)

Lemma new_promise_admitted n b e :
  admitted n b e !! length (promises e)
  = Some (outcome (maxTokens b) n false).
Proof.
  unfold admitted, outcome. destruct (n >? maxTokens b).
  - apply BucketSpec.lookup_new_promise.
  - rewrite lookup_app_r, Nat.sub_diag by lia. reflexivity.
Qed.

(** X2. The promise [removeTokens(n)] returns is a new one; it is rejected,
    with the [RangeError] of [n] and the capacity, exactly when [n] is
    above [maxTokens]; otherwise it is fulfilled or pending. *)
Theorem removeTokens_rejects_iff_above_capacity n b e :
  let r := removeTokens n b e in
  r.2 = length (promises e) /\
  (maxTokens b < n ->
   promises r.1.2 !! r.2
   = Some (Promise.Rejected (Promise.RangeError n (maxTokens b)))) /\
  (n <= maxTokens b ->
   promises r.1.2 !! r.2 = Some Promise.Fulfilled \/
   promises r.1.2 !! r.2 = Some Promise.Pending).
Proof.
  intros r. subst r.
  destruct (BucketSpec.removeTokens_split n b e)
    as (done & rest & _ & _ & _ & ->).
  simpl. split; [reflexivity|].
  rewrite settle_all_lookup, new_promise_admitted. unfold outcome.
  split; intros Hn.
  - destruct (Z.gtb_spec n (maxTokens b)); [|lia].
    destruct (decide _); reflexivity.
  - destruct (Z.gtb_spec n (maxTokens b)); [lia|].
    destruct (decide _); simpl; auto.
Qed.

Lemma removeTokens_rejects_iff_above_capacity_witness :
  let b := new (mkOptions (Some 2) None None (Some 4)) in
  let r := removeTokens 5 b empty_env in
  promises r.1.2 !! r.2 = Some (Promise.Rejected (Promise.RangeError 5 4)).
Proof.
  apply (proj1 (proj2 (removeTokens_rejects_iff_above_capacity 5
                         (new (mkOptions (Some 2) None None (Some 4)))
                         empty_env))).
  simpl. lia.
Defined.

(** *** What a promise tells *)

Lemma paid_segment (reqs : list Z) (log done rest : list Queuer) :
  log ++ done ++ rest = imap (fun i n => mkQueuer n i) reqs ->
  resolve <$> done = seq (length log) (length done).
Proof.
  intros Heq. apply list_eq. intros j.
  rewrite list_lookup_fmap.
  destruct (done !! j) as [q|] eqn:Ej; simpl.
  - pose proof (lookup_lt_Some _ _ _ Ej) as Hlt.
    rewrite lookup_seq_lt by exact Hlt. f_equal.
    assert (Hq : (log ++ done ++ rest) !! (length log + j)%nat = Some q).
    { rewrite lookup_app_r by lia.
      replace (length log + j - length log)%nat with j by lia.
      apply lookup_app_l_Some, Ej. }
    rewrite Heq, list_lookup_imap in Hq.
    destruct (reqs !! (length log + j)%nat); simpl in Hq; [|discriminate].
    injection Hq as <-. reflexivity.
  - apply lookup_ge_None in Ej. symmetry. apply lookup_ge_None.
    rewrite length_seq. exact Ej.
Qed.

Lemma settle_all_advances M (reqs : list Z) (ps : list Promise.state) (k : nat) done :
  resolve <$> done = seq k (length done) ->
  (forall i n, reqs !! i = Some n ->
     ps !! i = Some (outcome M n (bool_decide (i < k)%nat))) ->
  forall i n, reqs !! i = Some n ->
    settle_all done ps !! i
    = Some (outcome M n (bool_decide (i < k + length done)%nat)).
Proof.
  intros Hseg Hps i n Hi.
  rewrite settle_all_lookup, Hseg, (Hps _ _ Hi). unfold outcome.
  destruct (decide (i ∈ seq k (length done))) as [Hin|Hout].
  - apply elem_of_seq in Hin.
    rewrite (bool_decide_eq_false_2 (i < k)%nat) by lia.
    rewrite (bool_decide_eq_true_2 (i < k + length done)%nat) by lia.
    destruct (n >? M); reflexivity.
  - rewrite elem_of_seq in Hout.
    destruct (decide (i < k)%nat).
    + rewrite !bool_decide_eq_true_2 by lia. reflexivity.
    + rewrite !bool_decide_eq_false_2 by lia. reflexivity.
Qed.

Lemma step_tracked M reqs o s :
  tracked M reqs s ->
  tracked M (reqs ++ match o with RemoveTokens n => [n] | Tick => [] end)
    (step o s).
Proof.
  destruct s as [b e]. unfold tracked, history. simpl.
  intros (HM & Hhist & Hlen & Hps).
  assert (Hk : (length (resolved e) <= length reqs)%nat).
  { rewrite <- (length_imap (fun i n => mkQueuer n i) reqs), <- Hhist.
    rewrite length_app. lia. }
  destruct o as [n|]; simpl.
  - destruct (BucketSpec.removeTokens_split n b e)
      as (done & rest & Hq & _ & _ & ->).
    simpl.
    assert (Hhist' : resolved e ++ done ++ rest
                     = imap (fun i n => mkQueuer n i) (reqs ++ [n])).
    { rewrite <- Hq, imap_app, <- Hhist, <- app_assoc. simpl.
      rewrite Nat.add_0_r, Hlen. reflexivity. }
    split; [exact HM|]. split; [rewrite <- app_assoc; exact Hhist'|].
    split.
    { rewrite BucketSpec.length_settle_all, BucketSpec.length_admitted,
        length_app, Hlen. simpl. lia. }
    rewrite length_app.
    apply (settle_all_advances M (reqs ++ [n]));
      [apply (paid_segment _ _ _ _ Hhist')|].
    intros i m Hi.
    destruct (decide (i < length reqs)%nat) as [Hlt|Hge].
    + rewrite lookup_app_l in Hi by exact Hlt.
      apply admitted_keeps, Hps, Hi.
    + rewrite lookup_app_r in Hi by lia.
      destruct (i - length reqs)%nat as [|j] eqn:Ej; simpl in Hi;
        [|discriminate].
      injection Hi as <-. assert (i = length (promises e)) as -> by lia.
      rewrite new_promise_admitted, HM.
      rewrite bool_decide_eq_false_2 by lia. reflexivity.
  - rewrite app_nil_r. destruct (intervalId b); simpl; [|auto].
    destruct (BucketSpec.tick_split b e) as (done & rest & Hq & _ & _ & ->).
    simpl. rewrite Hq in Hhist.
    split; [exact HM|]. split; [rewrite <- app_assoc; exact Hhist|].
    split; [rewrite BucketSpec.length_settle_all; exact Hlen|].
    rewrite length_app.
    apply (settle_all_advances M reqs);
      [apply (paid_segment _ _ _ _ Hhist)|exact Hps].
Qed.

Lemma run_tracked M tr reqs s :
  tracked M reqs s -> tracked M (reqs ++ requests tr) (run tr s).
Proof.
  revert reqs s. induction tr as [|o tr IH]; intros reqs s Hs; simpl.
  - rewrite app_nil_r. exact Hs.
  - apply (step_tracked _ _ o) in Hs. apply IH in Hs.
    rewrite <- app_assoc in Hs. destruct o; exact Hs.
Qed.

(** X3. After any run of a new bucket, the promise of the [i]-th
    [removeTokens(n)] call tells what became of the request: rejected if
    [n] is above the capacity, else fulfilled if [resolve()] was called
    for it (it is among the first requests, as many as were resolved),
    else pending. *)
Theorem promise_tells_outcome options tr (i : nat) n :
  requests tr !! i = Some n ->
  promises (run tr (init options)).2 !! i
  = Some (outcome (maxTokens (new options)) n
            (bool_decide (i < length (resolved (run tr (init options)).2))%nat)).
Proof.
  intros Hi.
  assert (H0 : tracked (maxTokens (new options)) [] (init options)).
  { repeat split. intros j m Hj. discriminate. }
  apply (run_tracked _ tr) in H0 as (_ & _ & _ & H). apply H. exact Hi.
Qed.

Lemma promise_tells_outcome_witness :
  let options := mkOptions (Some 2) None None (Some 3) in
  let tr := [RemoveTokens 2; RemoveTokens 7; RemoveTokens 1; Tick] in
  promises (run tr (init options)).2 !! 1%nat
  = Some (outcome (maxTokens (new options)) 7
            (bool_decide (1 < length (resolved (run tr (init options)).2))%nat)).
Proof.
  apply (promise_tells_outcome (mkOptions (Some 2) None None (Some 3))
           [RemoveTokens 2; RemoveTokens 7; RemoveTokens 1; Tick] 1%nat 7).
  reflexivity.
Defined.

(** *** The timer's period *)

Lemma step_timer_on_interval o s :
  timer_on_interval s.1 -> timer_on_interval (step o s).1.
Proof.
  destruct s as [b e]. unfold timer_on_interval. simpl.
  intros Hb. destruct o as [n|]; simpl.
  - destruct (BucketSpec.removeTokens_split n b e)
      as (done & rest & _ & _ & _ & ->).
    simpl. destruct (intervalId b) as [i0|]; [exact Hb|].
    destruct (_ <? _); intros i [= <-]. reflexivity.
  - destruct (intervalId b) as [i0|] eqn:Ei;
      [|simpl; rewrite Ei; discriminate].
    destruct (BucketSpec.tick_split b e) as (done & rest & _ & _ & _ & ->).
    simpl. rewrite Ei. destruct (_ && _); [discriminate|exact Hb].
Qed.

(** X4. After any run of a new bucket, a timer the bucket holds was set
    with the bucket's [interval] as its delay, the value passed to the
    constructor (1000 when none is). *)
Theorem timer_delay_is_interval options tr i :
  intervalId (run tr (init options)).1 = Some i ->
  delay i = default 1000 (opt_interval options).
Proof.
  assert (H : forall tr s, timer_on_interval s.1 ->
                timer_on_interval (run tr s).1).
  { clear. intros tr. induction tr as [|o tr IH]; intros s Hs; simpl;
      [exact Hs|]. apply IH, step_timer_on_interval, Hs. }
  intros Hi. specialize (H tr (init options)). unfold timer_on_interval in H.
  rewrite (H ltac:(simpl; discriminate) i Hi).
  destruct (BucketSpec.run_frame tr (init options)) as (-> & _). reflexivity.
Qed.

Lemma timer_delay_is_interval_witness :
  delay (mkTimer 250) = default 1000 (opt_interval (mkOptions None (Some 250) None None)).
Proof.
  apply (timer_delay_is_interval (mkOptions None (Some 250) None None)
           [RemoveTokens 1; RemoveTokens 1; Tick; RemoveTokens 1]).
  reflexivity.
Defined.

(** *** No request waits for tokens that are there *)

(** X5. After any run of a new bucket the queue is empty or its first
    request costs more than the level: a request only waits behind one
    the bucket cannot pay yet. *)
Theorem queue_head_is_unaffordable options tr :
  match queue (run tr (init options)).1 with
  | [] => True
  | next :: _ => tokens (run tr (init options)).1 < count next
  end.
Proof. apply (BucketSpec.run_blocked tr (init options)). exact I. Qed.

(** *** Paid within the call, or queued with the timer running *)



(** X7. On a bucket whose queue is empty or blocked at its head, with
    queued counts within the capacity, [removeTokens(n)] with [n] within
    the capacity that cannot be paid at once (requests are waiting, or the
    level is below [n]) takes no token, is appended to the queue with a
    pending promise, and leaves the timer running. *)
Theorem removeTokens_waits_with_timer n b e :
  blocked (tokens b) (queue b) ->
  Forall (fun q => count q <= maxTokens b) (queue b) ->
  queue b <> [] \/ tokens b < n ->
  n <= maxTokens b ->
  let r := removeTokens n b e in
  tokens r.1.1 = tokens b /\
  queue r.1.1 = queue b ++ [mkQueuer n r.2] /\
  promises r.1.2 !! r.2 = Some Promise.Pending /\
  resolved r.1.2 = resolved e /\
  intervalId r.1.1 <> None.
Proof.
  intros Hb Hall Hor Hm r. subst r.
  destruct (BucketSpec.removeTokens_split n b e)
    as (done & rest & Heq & Haff & _ & ->).
  simpl.
  assert (Hdone : done = [] /\ rest = queue b ++ [mkQueuer n (length (promises e))]).
  { destruct (queue b) as [|next q] eqn:Eq.
    - destruct Hor as [?|Hlt]; [congruence|].
      destruct done as [|d done]; [auto|].
      simpl in Heq. injection Heq as <- _. simpl in Haff. lia.
    - apply (BucketSpec.blocked_pays_nothing (tokens b) (next :: q));
        try assumption. discriminate. }
  destruct Hdone as [-> ->]. simpl.
  assert (Hlt : tokens b < maxTokens b).
  { destruct (queue b) as [|next q].
    - destruct Hor; [congruence|lia].
    - simpl in Hb. inversion Hall; subst. lia. }
  repeat split; [lia| |apply app_nil_r|].
  - rewrite new_promise_admitted. unfold outcome.
    destruct (Z.gtb_spec n (maxTokens b)); [lia|reflexivity].
  - rewrite Z.sub_0_r. destruct (intervalId b); [discriminate|].
    destruct (Z.ltb_spec (tokens b) (maxTokens b)); [discriminate|lia].
Qed.

Lemma removeTokens_waits_with_timer_witness :
  let b := new (mkOptions (Some 1) None None (Some 4)) in
  let r := removeTokens 3 b empty_env in
  tokens r.1.1 = tokens b /\
  queue r.1.1 = queue b ++ [mkQueuer 3 r.2] /\
  promises r.1.2 !! r.2 = Some Promise.Pending /\
  resolved r.1.2 = resolved empty_env /\
  intervalId r.1.1 <> None.
Proof.
  apply (removeTokens_waits_with_timer 3
           (new (mkOptions (Some 1) None None (Some 4))) empty_env).
  - exact I.
  - constructor.
  - right. simpl. lia.
  - simpl. lia.
Defined.

(** *** The bucket comes to rest *)

Lemma run_app tr1 tr2 s : run (tr1 ++ tr2) s = run tr2 (run tr1 s).
Proof.
  revert s. induction tr1 as [|o tr1 IH]; intros s; simpl; [reflexivity|].
  apply IH.
Qed.

Lemma requests_ticks tr (k : nat) :
  requests (tr ++ replicate k Tick) = requests tr.
Proof.
  induction tr as [|[n|] tr IH]; simpl.
  - induction k as [|k IHk]; simpl; [reflexivity|exact IHk].
  - rewrite IH. reflexivity.
  - exact IH.
Qed.

Lemma settle_time_pos b :
  timer_exact b -> intervalId b <> None -> 1 <= settle_time b.
Proof.
  intros [(Hb & Hq & Hid) _] Hon. unfold settle_time.
  destruct (Hid Hon) as [Hlt|Hne].
  - destruct (queue b) as [|next q]; [simpl; lia|].
    simpl in Hb. inversion Hq; subst. simpl length. nia.
  - destruct (queue b) as [|next q]; [congruence|].
    simpl in Hb. inversion Hq; subst. simpl length. nia.
Qed.

Lemma tick_settle_time b e :
  timer_exact b ->
  1 <= tokensPerInterval b ->
  intervalId b <> None ->
  settle_time (tick b e).1 <= settle_time b - 1.
Proof.
  intros [(Hb & Hq & Hid) _] Hr Hon.
  destruct (BucketSpec.tick_split b e) as (done & rest & Heq & Haff & Hrest & ->).
  unfold settle_time. simpl.
  set (n1 := Z.min (tokens b + tokensPerInterval b) (maxTokens b)) in *.
  rewrite Heq in *. rewrite length_app.
  destruct done as [|d done].
  - simpl in *. destruct rest as [|next rest].
    + simpl. destruct (Hid Hon) as [?|?]; [lia|congruence].
    + simpl in Hrest, Hb. inversion Hq; subst.
      generalize (Z.of_nat (length (next :: rest)) * (maxTokens b + 1)).
      intros z. lia.
  - pose proof (BucketSpec.affordable_left _ _ Haff ltac:(discriminate)).
    simpl in Hb. apply Forall_app in Hq as [Hd _]. inversion Hd; subst.
    simpl length. nia.
Qed.

Lemma ticks_settle (k : nat) b e :
  timer_exact b ->
  1 <= tokensPerInterval b ->
  settle_time b <= Z.of_nat k ->
  intervalId (run (replicate k Tick) (b, e)).1 = None.
Proof.
  revert b e. induction k as [|k IH]; intros b e Hex Hr Hk; simpl.
  - destruct (intervalId b) eqn:Ei; [|reflexivity].
    pose proof (settle_time_pos b Hex ltac:(congruence)). lia.
  - destruct (intervalId b) eqn:Ei.
    + pose proof (tick_settle_time b e Hex Hr ltac:(congruence)) as Hdec.
      pose proof (BucketSpec.tick_timer_exact b e (proj1 Hex) ltac:(congruence))
        as Hex'.
      destruct (BucketSpec.tick_frame b e) as (_ & Hr' & _).
      destruct (tick b e) as [b' e']. simpl in *.
      apply IH; [exact Hex'|lia|lia].
    + apply IH; [exact Hex|exact Hr|].
      destruct Hex as [_ Hon]. unfold settle_time.
      destruct (queue b) as [|next q].
      * simpl. destruct (Z.lt_ge_cases (tokens b) (maxTokens b)); [|lia].
        exfalso. apply Hon; [left; assumption|exact Ei].
      * exfalso. apply Hon; [right; discriminate|exact Ei].
Qed.

(** With exact arithmetic: a new bucket with [tokensPerInterval >= 1],
    used with counts within [0 .. maxTokens] (and constructed full, or
    used at least once), is at rest once the timer has fired
    [settle_time] times after the last call. *)
Lemma run_comes_to_rest options tr (k : nat) :
  Forall (fun n => 0 <= n <= maxTokens (new options)) (requests tr) ->
  maxTokens (new options) <= tokens (new options) \/ requests tr <> [] ->
  1 <= tokensPerInterval (new options) ->
  settle_time (run tr (init options)).1 <= Z.of_nat k ->
  let s := run (tr ++ replicate k Tick) (init options) in
  intervalId s.1 = None /\
  queue s.1 = [] /\
  maxTokens s.1 <= tokens s.1 /\
  resolved s.2 = submitted tr.
Proof.
  intros Htr Hor Hr Hk s.
  assert (Hneeded : timer_needed (init options).1).
  { repeat split; [constructor|]. simpl. congruence. }
  assert (Hstart : timer_exact (init options).1 \/ requests tr <> []).
  { destruct Hor as [Hfull|Hreq]; [left|right; exact Hreq].
    split; [exact Hneeded|]. intros [Hlt|Hne].
    - change (tokens (new options) < maxTokens (new options)) in Hlt. lia.
    - exfalso. apply Hne. reflexivity. }
  pose proof (BucketSpec.run_timer_exact tr (init options) Hneeded Htr Hstart)
    as Hex.
  assert (Hoff : intervalId s.1 = None).
  { subst s. rewrite run_app.
    destruct (BucketSpec.run_frame tr (init options)) as (_ & Hr' & _).
    destruct (run tr (init options)) as [b e]. simpl in *.
    apply ticks_settle; [exact Hex|lia|exact Hk]. }
  assert (Hex' : timer_exact s.1).
  { apply (BucketSpec.run_timer_exact (tr ++ replicate k Tick) (init options)
             Hneeded); rewrite requests_ticks; assumption. }
  destruct Hex' as [_ Hon].
  assert (Hq : queue s.1 = []).
  { destruct (queue s.1) eqn:Eq; [reflexivity|].
    exfalso. apply Hon; [right; discriminate|exact Hoff]. }
  split; [exact Hoff|]. split; [exact Hq|]. split.
  - destruct (Z.lt_ge_cases (tokens s.1) (maxTokens s.1)); [|lia].
    exfalso. apply Hon; [left; assumption|exact Hoff].
  - pose proof (BucketSpec.run_history (tr ++ replicate k Tick) (init options))
      as Hh.
    unfold history in Hh. fold s in Hh. rewrite Hq, app_nil_r in Hh.
    rewrite Hh, requests_ticks. reflexivity.
Qed.

(** *** A request above the capacity blocks the queue *)

Lemma step_stuck next o s :
  stuck_behind next s.1 ->
  stuck_behind next (step o s).1 /\ resolved (step o s).2 = resolved s.2.
Proof.
  destruct s as [b e]. unfold stuck_behind. simpl.
  intros (Hnext & Hle & rest0 & Hq). destruct o as [n|]; simpl.
  - destruct (BucketSpec.removeTokens_split n b e)
      as (done & rest & Heq & Haff & _ & ->).
    simpl. rewrite Hq in Heq.
    destruct (BucketSpec.blocked_pays_nothing (tokens b) (next :: rest0)
                [mkQueuer n (length (promises e))] done rest
                ltac:(discriminate) ltac:(simpl; lia) Heq Haff) as [-> ->].
    simpl. rewrite app_nil_r.
    repeat split; [exact Hnext|lia|eexists; reflexivity].
  - destruct (intervalId b); simpl; [|eauto 6].
    destruct (BucketSpec.tick_split b e) as (done & rest & Heq & Haff & _ & ->).
    simpl. rewrite Hq in Heq.
    destruct done as [|d done].
    + simpl in Heq. subst rest. simpl. rewrite app_nil_r.
      repeat split; [exact Hnext|lia|eexists; reflexivity].
    + simpl in Heq, Haff. injection Heq as <- _. lia.
Qed.

(** X9. On a bucket with an empty queue and a level within the capacity,
    a [removeTokens(n)] with [n] above the capacity stays at the head of
    the queue for ever: whatever calls and timer callbacks follow, no
    [resolve()] is ever called again. *)
Theorem request_above_capacity_blocks_for_ever n b e tr :
  queue b = [] ->
  tokens b <= maxTokens b ->
  maxTokens b < n ->
  let s := run (RemoveTokens n :: tr) (b, e) in
  resolved s.2 = resolved e /\
  tokens s.1 <= maxTokens s.1 /\
  exists rest, queue s.1 = mkQueuer n (length (promises e)) :: rest.
Proof.
  intros Hq Hle Hn s. subst s. simpl.
  assert (Hrun : forall tr s next, stuck_behind next s.1 ->
            stuck_behind next (run tr s).1 /\ resolved (run tr s).2 = resolved s.2).
  { clear. intros tr. induction tr as [|o tr IH]; intros s next Hs; simpl;
      [auto|].
    destruct (step_stuck next o s Hs) as [Hs' <-]. apply IH, Hs'. }
  destruct (BucketSpec.removeTokens_split n b e)
    as (done & rest & Heq & Haff & _ & Hr).
  rewrite Hq in Heq. simpl in Heq.
  destruct done as [|d done].
  - simpl in Heq. subst rest. rewrite Hr. cbn [fst].
    match goal with |- context [run tr ?s0] =>
      destruct (Hrun tr s0 (mkQueuer n (length (promises e))))
        as [(_ & Hle' & Hrest) Hres]
    end.
    + unfold stuck_behind. simpl.
      repeat split; [exact Hn|lia|eexists; reflexivity].
    + split; [rewrite Hres; cbn [snd resolved]; apply app_nil_r|].
      split; [exact Hle'|exact Hrest].
  - injection Heq as <- _. simpl in Haff. lia.
Qed.

Lemma request_above_capacity_blocks_for_ever_witness :
  let b := new (mkOptions (Some 5) None None None) in
  let s := run (RemoveTokens 10 :: [RemoveTokens 1; Tick; RemoveTokens 0; Tick])
             (b, empty_env) in
  resolved s.2 = resolved empty_env /\
  tokens s.1 <= maxTokens s.1 /\
  exists rest, queue s.1 = mkQueuer 10 (length (promises empty_env)) :: rest.
Proof.
  apply (request_above_capacity_blocks_for_ever 10
           (new (mkOptions (Some 5) None None None)) empty_env
           [RemoveTokens 1; Tick; RemoveTokens 0; Tick]).
  - reflexivity.
  - simpl. lia.
  - simpl. lia.
Defined.

(** *** The two ways a call ends, as equations *)



(** *** The rate limit *)

Lemma requests_app tr1 tr2 :
  requests (tr1 ++ tr2) = requests tr1 ++ requests tr2.
Proof.
  induction tr1 as [|[n|] tr1 IH]; simpl; [reflexivity| |exact IH].
  rewrite IH. reflexivity.
Qed.




End BucketMore.

(** * Further properties of the rate limiter *)

Module ThrottlerMore.

Import FetchThrottler.

(** *** What [add] and [remove] do to the map *)

Lemma delete_all_lookup (hs : list string) (s : State) h :
  map (foldl (fun s h => removeThrottle h s) s hs) !! h
  = if decide (h ∈ hs) then None else map s !! h.
Proof.
  revert s. induction hs as [|k hs IH]; intros s; cbn [foldl].
  - rewrite decide_False by apply not_elem_of_nil. reflexivity.
  - rewrite IH. simpl.
    destruct (decide (k = h)) as [->|Hne].
    + rewrite lookup_delete_eq, (decide_True (P := h ∈ h :: hs)) by constructor.
      destruct (decide _); reflexivity.
    + rewrite lookup_delete_ne by exact Hne.
      destruct (decide (h ∈ hs)) as [Hin|Hout].
      * rewrite decide_True by (right; exact Hin). reflexivity.
      * rewrite decide_False; [reflexivity|].
        intros [?|?]%elem_of_cons; [congruence|contradiction].
Qed.

Lemma insert_all_lookup (v : Entry) (hs : list string) (m : gmap string Entry) h :
  foldl (fun m h => <[h := v]> m) m hs !! h
  = if decide (h ∈ hs) then Some v else m !! h.
Proof.
  destruct (decide (h ∈ hs)) as [Hin|Hout].
  - apply ThrottlerSpec.set_all_lookup. left. exact Hin.
  - revert m. induction hs as [|k hs IH]; intros m; cbn [foldl];
      [reflexivity|].
    rewrite IH by (intros ?; apply Hout; right; assumption).
    apply lookup_insert_ne. intros ->. apply Hout. left.
Qed.

(** X10. [remove] deletes the entries of the hostnames it is given and
    nothing else: every other hostname keeps its entry, and buckets,
    promises, waiting and sent calls are as they were.  When none of the
    hostnames is in the map, the map is unchanged. *)
Theorem remove_deletes_only_its_hostnames hs s :
  (forall h, map (remove hs s) !! h
             = if decide (h ∈ to_array hs) then None else map s !! h) /\
  heap (remove hs s) = heap s /\
  env (remove hs s) = env s /\
  awaiting (remove hs s) = awaiting s /\
  sent (remove hs s) = sent s /\
  ((forall h, h ∈ to_array hs -> map s !! h = None) ->
   map (remove hs s) = map s).
Proof.
  assert (Hl : forall h, map (remove hs s) !! h
                 = if decide (h ∈ to_array hs) then None else map s !! h).
  { intros h. apply delete_all_lookup. }
  destruct (ThrottlerSpec.remove_frame hs s) as (Hh & He & Ha & Hs).
  repeat split; try assumption.
  intros Hnone. apply map_eq. intros h. rewrite Hl.
  destruct (decide _) as [Hin|_]; [|reflexivity].
  symmetry. apply Hnone, Hin.
Qed.

Lemma remove_deletes_only_its_hostnames_witness :
  map (remove (Many ["x.org"; "y.org"]%string) Scenario.spent) = map Scenario.spent.
Proof.
  apply (remove_deletes_only_its_hostnames (Many ["x.org"; "y.org"]%string)
           Scenario.spent).
  intros h [->|[->|Hin]%elem_of_cons]%elem_of_cons.
  - reflexivity.
  - reflexivity.
  - inversion Hin.
Defined.

(** X11. [add] with a throttle of a valid interval maps each of its
    hostnames to one and the same entry, the filled-in throttle with one
    new bucket, and leaves the entry of every other hostname as it was;
    the buckets that existed are untouched. *)
Theorem add_maps_exactly_its_hostnames th s ms :
  interval_ms (interval th) = Some ms ->
  exists s' b,
    add (One th) s = Ok s' /\
    heap s' = heap s ++ [b] /\
    forall h, map s' !! h
              = if decide (h ∈ to_array (t_hostname th))
                then Some (mkEntry (sanitize ms th) (length (heap s)))
                else map s !! h.
Proof.
  intros Hms. unfold add. cbn [to_array add_loop].
  rewrite (ThrottlerSpec.addThrottle_valid _ _ _ Hms). unfold install.
  destruct (ThrottlerSpec.remove_frame (t_hostname th) s) as (Hheap & _).
  rewrite !Hheap. eexists _, _. split; [reflexivity|]. simpl.
  split; [reflexivity|]. intros h.
  rewrite insert_all_lookup. destruct (decide _) as [Hin|Hout]; [reflexivity|].
  unfold remove. rewrite delete_all_lookup, decide_False by exact Hout.
  reflexivity.
Qed.

Lemma add_maps_exactly_its_hostnames_witness :
  exists s' b,
    add (One Scenario.seven_shared) Scenario.spent = Ok s' /\
    heap s' = heap Scenario.spent ++ [b] /\
    forall h, map s' !! h
              = if decide (h ∈ to_array (t_hostname Scenario.seven_shared))
                then Some (mkEntry (sanitize 100 Scenario.seven_shared)
                             (length (heap Scenario.spent)))
                else map Scenario.spent !! h.
Proof.
  apply (add_maps_exactly_its_hostnames Scenario.seven_shared Scenario.spent 100).
  reflexivity.
Defined.

(** X12. [add] with a throttle whose interval is a string other than
    [second], [minute], [hour] and [day] throws, after the entries of the
    throttle's hostnames were deleted: those hostnames are left without
    throttle, and no bucket is created. *)
Theorem add_invalid_interval_throws th s k :
  interval th = Keyword k ->
  k ∉ ["second"; "minute"; "hour"; "day"]%string ->
  add (One th) s = Throw (NotAValidValue k) (remove (t_hostname th) s) /\
  heap (remove (t_hostname th) s) = heap s /\
  forall h, h ∈ to_array (t_hostname th) ->
    map (remove (t_hostname th) s) !! h = None.
Proof.
  intros Hk Hnot.
  assert (Hms : keyword_ms k = None).
  { rewrite !elem_of_cons, elem_of_nil in Hnot. unfold keyword_ms.
    destruct (String.eqb_spec k "second") as [->|_]; [exfalso; tauto|].
    destruct (String.eqb_spec k "minute") as [->|_]; [exfalso; tauto|].
    destruct (String.eqb_spec k "hour") as [->|_]; [exfalso; tauto|].
    destruct (String.eqb_spec k "day") as [->|_]; [exfalso; tauto|].
    reflexivity. }
  split; [|split].
  - unfold add. cbn [to_array add_loop]. unfold addThrottle.
    rewrite Hk, Hms. reflexivity.
  - apply ThrottlerSpec.remove_frame.
  - intros h Hin. apply ThrottlerSpec.remove_lookup_in, Hin.
Qed.

Lemma add_invalid_interval_throws_witness :
  let th := mkThrottle (One "a.com"%string) 5 (Keyword "week") None None None None in
  add (One th) Scenario.spent
  = Throw (NotAValidValue "week") (remove (t_hostname th) Scenario.spent) /\
  heap (remove (t_hostname th) Scenario.spent) = heap Scenario.spent /\
  forall h, h ∈ to_array (t_hostname th) ->
    map (remove (t_hostname th) Scenario.spent) !! h = None.
Proof.
  apply (add_invalid_interval_throws
           (mkThrottle (One "a.com"%string) 5 (Keyword "week") None None None None)
           Scenario.spent "week"%string).
  - reflexivity.
  - rewrite !elem_of_cons, elem_of_nil.
    intros [H|[H|[H|[H|H]]]]; try discriminate H. exact H.
Defined.

(** *** Calls that are not throttled *)

(** X13. After [remove] with the hostname of a request, and after
    [clear()], [fetch] passes the request and its options to
    [STORE.fetch] as they are, at once, and touches no bucket and no
    promise. *)
Theorem fetch_after_remove_or_clear_passes_through s hs request options :
  hostname request ∈ to_array hs ->
  (sent (fetch request options (remove hs s))
   = sent s ++ [mkRequest request (default empty_init options)] /\
   heap (fetch request options (remove hs s)) = heap s /\
   env (fetch request options (remove hs s)) = env s /\
   awaiting (fetch request options (remove hs s)) = awaiting s) /\
  (sent (fetch request options (clear s))
   = sent s ++ [mkRequest request (default empty_init options)] /\
   heap (fetch request options (clear s)) = heap s /\
   env (fetch request options (clear s)) = env s /\
   awaiting (fetch request options (clear s)) = awaiting s).
Proof.
  intros Hin. split.
  - unfold fetch. rewrite (ThrottlerSpec.remove_lookup_in _ _ _ Hin). simpl.
    destruct (ThrottlerSpec.remove_frame hs s) as (-> & -> & -> & ->). auto.
  - unfold fetch. simpl. rewrite lookup_empty. simpl. auto.
Qed.

Lemma fetch_after_remove_or_clear_passes_through_witness :
  sent (fetch Scenario.a_com Scenario.head
          (remove (One "a.com"%string) Scenario.spent))
  = sent Scenario.spent
    ++ [mkRequest Scenario.a_com (default empty_init Scenario.head)].
Proof.
  apply (fetch_after_remove_or_clear_passes_through Scenario.spent
           (One "a.com"%string) Scenario.a_com Scenario.head).
  simpl. constructor.
Defined.

(** *** Calls that are throttled *)







(** *** Every hostname has its bucket *)

Lemma well_formed_remove hs s : well_formed s -> well_formed (remove hs s).
Proof.
  intros Hs h ent Hh. unfold remove in Hh. rewrite delete_all_lookup in Hh.
  destruct (decide _); [discriminate|].
  destruct (ThrottlerSpec.remove_frame hs s) as (-> & _). apply (Hs h), Hh.
Qed.

Lemma well_formed_install ms th s :
  well_formed s -> well_formed (install ms th s).
Proof.
  intros Hs h ent. unfold install. cbn [map heap].
  rewrite insert_all_lookup. destruct (decide _) as [_|_].
  - intros [= <-]. cbn [bucket].
    rewrite lookup_app_r, Nat.sub_diag by lia. eexists. split; [reflexivity|].
    eexists ms, _. cbn [throttle]. repeat split; reflexivity.
  - intros Hh. destruct (Hs h ent Hh) as (b & Hb & Hc).
    exists b. split; [apply lookup_app_l_Some, Hb|exact Hc].
Qed.

Lemma well_formed_add ths s :
  well_formed s -> well_formed (state_of (add_loop ths s)).
Proof.
  revert s. induction ths as [|th ths IH]; intros s Hs; simpl; [exact Hs|].
  pose proof (well_formed_remove (t_hostname th) s Hs) as Hr.
  unfold addThrottle. destruct (interval th) as [ms|k].
  - apply IH, well_formed_install, Hr.
  - destruct (keyword_ms k) as [ms|]; [|exact Hr].
    apply IH, well_formed_install, Hr.
Qed.

Lemma flush_frame s :
  map (flush s) = map s /\ heap (flush s) = heap s /\ env (flush s) = env s.
Proof.
  unfold flush. destruct (resume _ _). simpl. auto.
Qed.

Lemma well_formed_update (m : gmap string Entry) (hp : list Bucket.t) (ref : nat) b b' :
  (forall (h : string) ent, m !! h = Some ent ->
     exists b0, hp !! bucket ent = Some b0 /\ configured ent b0) ->
  hp !! ref = Some b ->
  Bucket.interval b' = Bucket.interval b ->
  Bucket.tokensPerInterval b' = Bucket.tokensPerInterval b ->
  Bucket.maxTokens b' = Bucket.maxTokens b ->
  forall (h : string) ent, m !! h = Some ent ->
    exists b0, <[ref := b']> hp !! bucket ent = Some b0 /\ configured ent b0.
Proof.
  intros Hm Hb Hi Hr Hc h ent Hh.
  destruct (Hm h ent Hh) as (b0 & Hb0 & ms & mx & H1 & H2 & H3 & H4 & H5).
  destruct (decide (bucket ent = ref)) as [Heq|Hne].
  - rewrite Heq in *. exists b'. split.
    + apply list_lookup_insert_eq. eapply lookup_lt_Some, Hb.
    + assert (b0 = b) as -> by congruence.
      exists ms, mx. repeat split; congruence.
  - exists b0. split; [|exists ms, mx; auto].
    rewrite list_lookup_insert_ne by congruence. exact Hb0.
Qed.

Lemma well_formed_fetch request options s :
  well_formed s -> well_formed (fetch request options s).
Proof.
  intros Hs. unfold fetch.
  destruct (map s !! hostname request) as [ent|]; [|exact Hs].
  destruct (heap s !! bucket ent) as [b|] eqn:Hb; [|exact Hs].
  destruct (BucketSpec.removeTokens_frame b (env s)
              (default 1%Z (options ≫= throttleTokens))) as (Hi & Hr & Hc).
  destruct (Bucket.removeTokens _ b (env s)) as [[b' e'] promise].
  intros h ent'.
  match goal with |- context [flush ?s0] =>
    destruct (flush_frame s0) as (-> & -> & _) end.
  simpl. apply (well_formed_update _ _ _ b b'); assumption.
Qed.

Lemma well_formed_timer ref s :
  well_formed s -> well_formed (timer ref s).
Proof.
  intros Hs. unfold timer.
  destruct (heap s !! ref) as [b|] eqn:Hb; [|exact Hs].
  destruct (Bucket.intervalId b); [|exact Hs].
  destruct (BucketSpec.tick_frame b (env s)) as (Hi & Hr & Hc).
  destruct (Bucket.tick b (env s)) as [b' e'].
  intros h ent'.
  match goal with |- context [flush ?s0] =>
    destruct (flush_frame s0) as (-> & -> & _) end.
  simpl. apply (well_formed_update _ _ _ b b'); assumption.
Qed.

(** X16. Whatever is called on a throttler, starting from its
    constructor, every hostname of the map has a bucket, and that bucket
    has the rate of the hostname's throttle: its interval in
    milliseconds, its [tokensPerInterval], and its [maxTokens] as
    capacity (1 when [maxTokens] is 0). *)
Theorem hostnames_have_configured_buckets th cs h ent :
  map (calls cs (state_of (constructor th))) !! h = Some ent ->
  exists b,
    heap (calls cs (state_of (constructor th))) !! bucket ent = Some b /\
    configured ent b.
Proof.
  assert (Hrun : forall cs s, well_formed s -> well_formed (calls cs s)).
  { clear. intros cs. induction cs as [|c cs IH]; intros s Hs; simpl;
      [exact Hs|].
    apply IH. destruct c as [ths|hs| |request options|ref]; simpl.
    - apply well_formed_add, Hs.
    - apply well_formed_remove, Hs.
    - intros k e Hk. simpl in Hk. rewrite lookup_empty in Hk. discriminate.
    - apply well_formed_fetch, Hs.
    - apply well_formed_timer, Hs. }
  assert (H0 : well_formed (state_of (constructor th))).
  { destruct th as [ths|]; simpl.
    - apply well_formed_add. intros k e Hk. simpl in Hk.
      rewrite lookup_empty in Hk. discriminate.
    - intros k e Hk. simpl in Hk. rewrite lookup_empty in Hk. discriminate. }
  apply (Hrun cs _ H0).
Qed.

Lemma hostnames_have_configured_buckets_witness :
  exists b,
    heap (calls [Fetch Scenario.a_com None; Timer 0; Add (One Scenario.seven_shared)]
            (state_of (constructor (Some (One Scenario.one_per_second)))))
      !! bucket (mkEntry (sanitize 100 Scenario.seven_shared) 1) = Some b /\
    configured (mkEntry (sanitize 100 Scenario.seven_shared) 1) b.
Proof.
  apply (hostnames_have_configured_buckets
           (Some (One Scenario.one_per_second))
           [Fetch Scenario.a_com None; Timer 0; Add (One Scenario.seven_shared)]
           "b.com"%string (mkEntry (sanitize 100 Scenario.seven_shared) 1)).
  vm_compute. reflexivity.
Defined.

End ThrottlerMore.

(** * The bucket in double precision *)

Module DoubleSpec.

Import Bucket.
Import Double.
Local Open Scope Z_scope.

(** *** Where the two arithmetics agree *)

Lemma round_exact s : exact s = true -> round s = s.
Proof. unfold exact, round. intros ->. reflexivity. Qed.

Lemma take_loop_agree n q e :
  take_exact n q = true -> Double.take_loop n q e = Bucket.take_loop n q e.
Proof.
  revert n e. induction q as [|next q IH]; intros n e H; simpl in *;
    [reflexivity|].
  destruct (n >=? count next); [|reflexivity].
  apply andb_true_iff in H as [Hx Hq].
  unfold minus. rewrite (round_exact _ Hx). apply IH, Hq.
Qed.

Lemma take_agree b e :
  take_exact (tokens b) (queue b) = true -> Double.take b e = Bucket.take b e.
Proof.
  intros H. unfold Double.take, Bucket.take.
  rewrite (take_loop_agree _ _ _ H). reflexivity.
Qed.

Lemma tick_agree b e :
  exact (tokens b + tokensPerInterval b) = true ->
  take_exact (Z.min (tokens b + tokensPerInterval b) (maxTokens b)) (queue b)
  = true ->
  Double.tick b e = Bucket.tick b e.
Proof.
  intros Hx Hq. unfold Double.tick, Bucket.tick, plus.
  rewrite (round_exact _ Hx), take_agree by exact Hq. reflexivity.
Qed.

Lemma step_agree o s :
  step_exact o s = true -> Double.step o s = Bucket.step o s.
Proof.
  destruct s as [b e]. destruct o as [n|]; simpl; intros H.
  - apply andb_true_iff in H as [_ Hq].
    unfold Double.removeTokens, Bucket.removeTokens, Promise.withResolvers.
    rewrite take_agree by exact Hq. reflexivity.
  - destruct (intervalId b); [|reflexivity].
    apply andb_true_iff in H as [Hx Hq]. apply tick_agree; assumption.
Qed.

Lemma run_agree tr s :
  exact_run tr s = true -> Double.run tr s = Bucket.run tr s.
Proof.
  revert s. induction tr as [|o tr IH]; intros s H; simpl in *; [reflexivity|].
  apply andb_true_iff in H as [Ho Htr].
  rewrite (step_agree _ _ Ho). apply IH, Htr.
Qed.

Lemma exact_run_app tr1 tr2 s :
  exact_run (tr1 ++ tr2) s = exact_run tr1 s && exact_run tr2 (Bucket.run tr1 s).
Proof.
  revert s. induction tr1 as [|o tr1 IH]; intros s; simpl; [reflexivity|].
  rewrite IH, andb_assoc. reflexivity.
Qed.

(** *** Conservation of tokens *)

(** C4, as the code has it.  A timer callback sets the level to
    [min (tokens + tokensPerInterval) maxTokens], the sum taken in
    doubles, and then does what [#take] does from that level: same
    level, same queue, same [resolve()] calls; where the sum and the
    differences are exact, that is a prefix [done] of the queue paid in
    order out of the refilled level, up to the first request it cannot
    pay.  After a run of a new bucket on which every number, sum and
    difference is exact (an integer within [2^53] of zero), the level is
    the initial level, plus what the callbacks added under the cap,
    minus the counts of the requests resolved; when no callback hit the
    cap, what was added is [tokensPerInterval] per callback. *)
Theorem tick_refills_and_conserves :
  (forall b e,
      let b1 := set_tokens
                  (Z.min (plus (tokens b) (tokensPerInterval b)) (maxTokens b)) b in
      tokens (Double.tick b e).1 = tokens (Double.take b1 e).1 /\
      queue (Double.tick b e).1 = queue (Double.take b1 e).1 /\
      (Double.tick b e).2 = (Double.take b1 e).2) /\
  (forall b e,
      exact (tokens b + tokensPerInterval b) = true ->
      take_exact (Z.min (tokens b + tokensPerInterval b) (maxTokens b)) (queue b)
      = true ->
      exists done rest,
        queue b = done ++ rest /\
        affordable (Z.min (tokens b + tokensPerInterval b) (maxTokens b)) done /\
        blocked
          (Z.min (tokens b + tokensPerInterval b) (maxTokens b) - sum_counts done)
          rest /\
        tokens (Double.tick b e).1
        = Z.min (tokens b + tokensPerInterval b) (maxTokens b) - sum_counts done /\
        queue (Double.tick b e).1 = rest /\
        resolved (Double.tick b e).2 = resolved e ++ done) /\
  (forall options tr,
      exact_bucket (new options) = true ->
      exact_run tr (init options) = true ->
      tokens (Double.run tr (init options)).1 =
        tokens (new options) + refilled tr (init options)
        - sum_counts (resolved (Double.run tr (init options)).2)) /\
  (forall options tr,
      exact_bucket (new options) = true ->
      exact_run tr (init options) = true ->
      no_overflow tr (init options) = true ->
      tokens (Double.run tr (init options)).1 =
        tokens (new options)
        + Z.of_nat (fired tr (init options)) * tokensPerInterval (new options)
        - sum_counts (resolved (Double.run tr (init options)).2)).
Proof.
  assert (H : forall options tr,
             exact_run tr (init options) = true ->
             tokens (Double.run tr (init options)).1 =
               tokens (new options) + refilled tr (init options)
               - sum_counts (resolved (Double.run tr (init options)).2)).
  { intros options tr Hx. rewrite (run_agree _ _ Hx).
    pose proof (BucketSpec.run_ledger tr (init options)) as H.
    change (ledger (init options)) with (tokens (new options) + 0) in H.
    unfold ledger in H. lia. }
  split; [|split; [|split]].
  - intros b e b1. unfold Double.tick. fold b1.
    destruct (Double.take b1 e) as [b2 e2].
    destruct (_ && _); simpl; auto.
  - intros b e Hx Hq. rewrite (tick_agree _ _ Hx Hq).
    destruct (BucketSpec.tick_split b e)
      as (done & rest & Heq & Haff & Hrest & ->).
    exists done, rest. simpl. repeat split; assumption.
  - intros options tr _ Hx. apply H, Hx.
  - intros options tr _ Hx Hno.
    rewrite (H _ _ Hx), (BucketSpec.refilled_no_overflow _ _ Hno). reflexivity.
Qed.

Lemma tick_refills_and_conserves_witness :
  let options := mkOptions (Some 5) (Some 1000) (Some 1) (Some 5) in
  let tr := [RemoveTokens 5; RemoveTokens 1; Tick; Tick] in
  tokens (Double.run tr (init options)).1
  = tokens (new options)
    + Z.of_nat (fired tr (init options)) * tokensPerInterval (new options)
    - sum_counts (resolved (Double.run tr (init options)).2).
Proof.
  apply (proj2 (proj2 (proj2 tick_refills_and_conserves))
           (mkOptions (Some 5) (Some 1000) (Some 1) (Some 5))
           [RemoveTokens 5; RemoveTokens 1; Tick; Tick]).
  - vm_compute. reflexivity.
  - vm_compute. reflexivity.
  - vm_compute. reflexivity.
Defined.

(** C4, counterexample:
    [new Bucket({ initialTokens: 2**53, tokensPerInterval: 1,
                  maxTokens: 2**53 + 2 })],
    all three doubles.  After [removeTokens(0)] the timer runs; its
    callback finds the sum [2^53 + 1] below the capacity, so nothing
    overflows, and the double sum is [2^53]: the level stays where it was
    while the initial level plus one refill minus the debits is
    [2^53 + 1]. *)
Lemma conservation_fails_beyond_2_53 :
  let options := mkOptions (Some (2 ^ 53)) None (Some 1) (Some (2 ^ 53 + 2)) in
  let s1 := Double.step (RemoveTokens 0) (init options) in
  let s2 := Double.step Tick s1 in
  round (2 ^ 53) = 2 ^ 53 /\
  round (2 ^ 53 + 2) = 2 ^ 53 + 2 /\
  intervalId s1.1 <> None /\
  tokens s1.1 + tokensPerInterval s1.1 <= maxTokens s1.1 /\
  sum_counts (resolved s2.2) = 0 /\
  tokens s2.1 = 2 ^ 53 /\
  tokens s2.1
  <> tokens (new options) + 1 * tokensPerInterval (new options)
     - sum_counts (resolved s2.2).
Proof. vm_compute. repeat split; try reflexivity; discriminate. Qed.

(** *** The bucket comes to rest *)

(** X8. A new bucket with [tokensPerInterval >= 1], used with counts
    within [0 .. maxTokens] (and constructed full, or used at least once),
    on which every number, sum and difference is exact (an integer within
    [2^53] of zero), comes to rest: once the timer has fired [settle_time]
    times after the last call, every request has been resolved, in call
    order, the queue is empty, the bucket is full and the timer is
    cleared. *)
Theorem bucket_comes_to_rest options tr (k : nat) :
  exact_bucket (new options) = true ->
  exact_run (tr ++ replicate k Tick) (init options) = true ->
  Forall (fun n => 0 <= n <= maxTokens (new options)) (requests tr) ->
  maxTokens (new options) <= tokens (new options) \/ requests tr <> [] ->
  1 <= tokensPerInterval (new options) ->
  settle_time (Double.run tr (init options)).1 <= Z.of_nat k ->
  let s := Double.run (tr ++ replicate k Tick) (init options) in
  intervalId s.1 = None /\
  queue s.1 = [] /\
  maxTokens s.1 <= tokens s.1 /\
  resolved s.2 = submitted tr.
Proof.
  intros _ Hx Htr Hor Hr Hk s. subst s.
  pose proof Hx as Hx1. rewrite exact_run_app in Hx1.
  apply andb_true_iff in Hx1 as [Hx1 _].
  rewrite (run_agree _ _ Hx1) in Hk. rewrite (run_agree _ _ Hx).
  apply BucketMore.run_comes_to_rest; assumption.
Qed.

Lemma bucket_comes_to_rest_witness :
  let options := mkOptions (Some 2) None (Some 2) (Some 3) in
  let tr := [RemoveTokens 2; RemoveTokens 3; Tick; RemoveTokens 1] in
  let s := Double.run (tr ++ replicate 9 Tick) (init options) in
  intervalId s.1 = None /\
  queue s.1 = [] /\
  maxTokens s.1 <= tokens s.1 /\
  resolved s.2 = submitted tr.
Proof.
  apply (bucket_comes_to_rest (mkOptions (Some 2) None (Some 2) (Some 3))
           [RemoveTokens 2; RemoveTokens 3; Tick; RemoveTokens 1] 9).
  - vm_compute. reflexivity.
  - vm_compute. reflexivity.
  - simpl. repeat constructor; lia.
  - right. simpl. discriminate.
  - simpl. lia.
  - vm_compute. discriminate.
Defined.

End DoubleSpec.

(** * Requests of zero tokens, after the call *)

Module BucketZero.

Import Bucket.
Local Open Scope Z_scope.

(** A request of zero tokens is never the first of the queue after an
    operation: what pays the request ahead of it leaves a level that is
    not negative, and the loop of [#take] goes on to it. *)
Lemma step_zero_never_next (j : nat) Z o s :
  count Z = 0 ->
  history s !! j = Some Z ->
  length (resolved s.2) <> j ->
  history (step o s) !! j = Some Z /\ length (resolved (step o s).2) <> j.
Proof.
  destruct s as [b e]. intros HZ Hj Hne.
  destruct (BucketSpec.step_history o (b, e)) as [Hh _].
  assert (Hj' : history (step o (b, e)) !! j = Some Z).
  { rewrite Hh. apply lookup_app_l_Some, Hj. }
  split; [exact Hj'|]. clear Hh. unfold history in Hj'. simpl in Hne.
  assert (Hstuck : forall n1 (done rest : list Queuer),
             affordable n1 done ->
             blocked (n1 - sum_counts done) rest ->
             ((resolved e ++ done) ++ rest) !! j = Some Z ->
             length (resolved e ++ done) <> j).
  { intros n1 done rest Haff Hrest Hl Hlen.
    rewrite lookup_app_r, Hlen, Nat.sub_diag in Hl by lia.
    destruct rest as [|next rest]; [discriminate|].
    injection Hl as ->. simpl in Hrest.
    destruct done as [|d done].
    - rewrite app_nil_r in Hlen. contradiction.
    - pose proof (BucketSpec.affordable_left _ _ Haff ltac:(discriminate)).
      lia. }
  destruct o as [n|]; simpl in *.
  - destruct (BucketSpec.removeTokens_split n b e)
      as (done & rest & _ & Haff & Hrest & Hr).
    rewrite Hr in *. simpl in *. eapply Hstuck; eassumption.
  - destruct (intervalId b); [|exact Hne].
    destruct (BucketSpec.tick_split b e)
      as (done & rest & _ & Haff & Hrest & Hr).
    rewrite Hr in *. simpl in *. eapply Hstuck; eassumption.
Qed.

Lemma run_zero_never_next (j : nat) Z tr s :
  count Z = 0 ->
  history s !! j = Some Z ->
  length (resolved s.2) <> j ->
  history (run tr s) !! j = Some Z /\ length (resolved (run tr s).2) <> j.
Proof.
  intros HZ. revert s. induction tr as [|o tr IH]; intros s Hj Hne; simpl;
    [auto|].
  destruct (step_zero_never_next j Z o s HZ Hj Hne) as [Hj' Hne'].
  apply IH; assumption.
Qed.

(** C8, as the code has it.  In every state a bucket reaches,
    [removeTokens(0)] leaves the level as it is.  On an empty queue, with
    a level and a capacity that are not negative, it is resolved within
    the call.  Behind queued requests it is queued and pending; whatever
    follows, it is then never the first of the queue: the [#take] that
    resolves the request just ahead of it resolves it too, so its promise
    is fulfilled once all the requests made before it are resolved, and
    pending as long as one of them is not. *)
Theorem removeTokens_zero options tr tr' :
  let s := run tr (init options) in
  let r := removeTokens 0 s.1 s.2 in
  let s' := run tr' r.1 in
  tokens r.1.1 = tokens s.1 /\
  (queue s.1 = [] -> 0 <= tokens s.1 -> 0 <= maxTokens s.1 ->
   queue r.1.1 = [] /\
   promises r.1.2 !! r.2 = Some Promise.Fulfilled /\
   resolved r.1.2 = resolved s.2 ++ [mkQueuer 0 r.2]) /\
  (queue s.1 <> [] -> 0 <= maxTokens s.1 ->
   queue r.1.1 = queue s.1 ++ [mkQueuer 0 r.2] /\
   promises r.1.2 !! r.2 = Some Promise.Pending /\
   resolved r.1.2 = resolved s.2 /\
   length (resolved s'.2) <> r.2 /\
   ((r.2 < length (resolved s'.2))%nat ->
    resolved s'.2 !! r.2 = Some (mkQueuer 0 r.2) /\
    promises s'.2 !! r.2 = Some Promise.Fulfilled) /\
   ((length (resolved s'.2) < r.2)%nat ->
    promises s'.2 !! r.2 = Some Promise.Pending)).
Proof.
  intros s r s'.
  destruct (BucketSpec.removeTokens_zero_in_call options tr) as (H1 & H2 & H3).
  fold s in H1, H2, H3. fold r in H1, H2, H3.
  split; [exact H1|]. split; [exact H2|].
  intros Hq Hm. destruct (H3 Hq Hm) as (Hq' & Hp & Hres).
  split; [exact Hq'|]. split; [exact Hp|]. split; [exact Hres|].
  assert (H0 : tracked (maxTokens (new options)) [] (init options)).
  { repeat split. intros j m Hj. discriminate. }
  pose proof (BucketMore.run_tracked _ tr _ _ H0) as (HM & Hh & Hlen & _).
  fold s in HM, Hh, Hlen. simpl in Hh, Hlen.
  assert (Hr2 : r.2 = length (requests tr)).
  { subst r. destruct s as [b e]. simpl in *.
    destruct (BucketSpec.removeTokens_split 0 b e)
      as (done & rest & _ & _ & _ & ->). simpl. exact Hlen. }
  assert (Hhl : length (history s) = length (requests tr)).
  { rewrite Hh. apply length_imap. }
  assert (Hj : history (r.1) !! r.2 = Some (mkQueuer 0 r.2)).
  { unfold history. rewrite Hres, Hq', app_assoc.
    fold (history s). rewrite lookup_app_r by lia.
    rewrite Hr2, Hhl, Nat.sub_diag. reflexivity. }
  assert (Hne : length (resolved (r.1).2) <> r.2).
  { rewrite Hres, Hr2, <- Hhl. unfold history. rewrite length_app.
    destruct (queue s.1); [congruence|simpl; lia]. }
  destruct (run_zero_never_next r.2 (mkQueuer 0 r.2) tr' r.1 eq_refl Hj Hne)
    as [Hj' Hne'].
  fold s' in Hj', Hne'.
  assert (Hs' : s' = run (tr ++ RemoveTokens 0 :: tr') (init options)).
  { rewrite BucketMore.run_app. reflexivity. }
  pose proof (BucketMore.run_tracked _ (tr ++ RemoveTokens 0 :: tr') _ _ H0)
    as (_ & _ & _ & Hps).
  rewrite <- Hs' in Hps.
  assert (Hreq : requests (tr ++ RemoveTokens 0 :: tr') !! r.2 = Some 0).
  { rewrite BucketMore.requests_app, lookup_app_r by lia.
    rewrite Hr2, Nat.sub_diag. reflexivity. }
  specialize (Hps _ _ Hreq). unfold outcome in Hps.
  assert (HM' : 0 <= maxTokens (new options)) by (rewrite <- HM; exact Hm).
  rewrite Z.gtb_ltb, (proj2 (Z.ltb_ge _ _) HM') in Hps.
  split; [exact Hne'|]. split.
  - intros Hlt. split.
    + unfold history in Hj'. rewrite lookup_app_l in Hj' by exact Hlt.
      exact Hj'.
    + rewrite Hps, bool_decide_eq_true_2 by exact Hlt. reflexivity.
  - intros Hlt. rewrite Hps, bool_decide_eq_false_2 by lia. reflexivity.
Qed.

Lemma removeTokens_zero_witness :
  let s := run [RemoveTokens 3] (init (mkOptions (Some 1) None (Some 2) (Some 3))) in
  let r := removeTokens 0 s.1 s.2 in
  let s' := run [Tick; RemoveTokens 1] r.1 in
  queue r.1.1 = queue s.1 ++ [mkQueuer 0 r.2] /\
  promises r.1.2 !! r.2 = Some Promise.Pending /\
  resolved r.1.2 = resolved s.2 /\
  length (resolved s'.2) <> r.2 /\
  ((r.2 < length (resolved s'.2))%nat ->
   resolved s'.2 !! r.2 = Some (mkQueuer 0 r.2) /\
   promises s'.2 !! r.2 = Some Promise.Fulfilled) /\
  ((length (resolved s'.2) < r.2)%nat ->
   promises s'.2 !! r.2 = Some Promise.Pending).
Proof.
  apply (proj2 (proj2 (removeTokens_zero (mkOptions (Some 1) None (Some 2) (Some 3))
                         [RemoveTokens 3] [Tick; RemoveTokens 1]))).
  - vm_compute. discriminate.
  - vm_compute. discriminate.
Defined.

End BucketZero.
